(** * PyNite: rectangular wall panel meshing and steel section capacity

    A shallow embedding of

    - [Examples/Out-of-Plane Wall Panel - Quads.py] (class [RectWall]):
      meshing ([__descritize]), edge supports ([__define_supports]), the
      pressure loading part of [analyze], its search for the largest
      displacement, and the grid that [plot_forces] and [plot_disp] read
      off the nodes;
    - [PyNite/Section.py] (classes [Section] and [SteelSection]).

    Python floats are idealised as exact numbers: canonical rationals [Qc]
    for the wall panel (so that the mesh can be computed), real numbers [R]
    for the section capacity model (so that derivatives can be stated).
    Python integers are [Z]. Rounding, overflow and underflow of floats are
    not modelled: the properties below are structural (keys, counts,
    order, which branch is taken), or are stated for the formulas that the
    code evaluates; where a property says that a call returns, it asks for
    quotients within the range of floats, or it is stated for the calls
    that return. *)

From Stdlib Require Import QArith Qcanon Qround Qcabs Reals Lra.
From Stdlib Require Lqa.
From stdpp Require Import base numbers list strings pretty sorting gmap.

Local Open Scope Z_scope.

(** ** Python exceptions and outcomes *)

Inductive exn :=
  | ZeroDivisionError
  | TypeError
  | StopIteration
  | KeyError
  | AttributeError.

(** The outcome of running a method on an object whose state has type [S]:
    it either returns, or raises; in both cases the object is left in some
    state, which for [Raised] is the state at the time of the [raise]. *)
Inductive outcome (S : Type) :=
  | Done (s : S)
  | Raised (e : exn) (s : S).
Arguments Done {S} s.
Arguments Raised {S} e s.

#[global] Instance exn_eq_dec : EqDecision exn.
Proof. solve_decision. Defined.
#[global] Instance outcome_eq_dec {S} `{EqDecision S} :
  EqDecision (outcome S).
Proof. solve_decision. Defined.

Definition outcome_state {S} (o : outcome S) : S :=
  match o with Done s => s | Raised _ s => s end.

Definition outcome_map {S T} (f : S → T) (o : outcome S) : outcome T :=
  match o with Done s => Done (f s) | Raised e s => Raised e (f s) end.

(** ** Python numbers *)

(** [a / b] on floats (true division). *)
Definition truediv (a b : Qc) : exn + Qc :=
  if decide (b = 0%Qc) then inl ZeroDivisionError else inr (a / b)%Qc.

Definition half : Qc := Q2Qc (1 # 2).

(** [round(x)] with one argument: the nearest integer, ties to the even one.
    On exact numbers: the [OverflowError] of [round] on an infinite float is
    outside the model. *)
Definition py_round (x : Qc) : Z :=
  let f := Qfloor x in
  let r := (x - Qc_of_Z f)%Qc in
  if decide (r < half)%Qc then f
  else if decide (half < r)%Qc then f + 1
  else if Z.even f then f else f + 1.

(** [int(x)] on a float: truncation towards zero. *)
Definition py_int (x : Qc) : Z :=
  if decide (0 ≤ x)%Qc then Qfloor x else Qceiling x.

(** [str(n)] on an int. *)
Definition str (n : Z) : string := pretty n.

(** ** The finite element model *)

Record Node3D := mkNode3D {
  Name : string;
  X : Qc;
  Y : Qc;
  Zcoord : Qc;
  SupportDX : bool;
  SupportDY : bool;
  SupportDZ : bool;
  SupportRX : bool;
  SupportRY : bool;
  SupportRZ : bool;
}.

Record Quad3D := mkQuad3D {
  qName : string;
  iNode : string;
  jNode : string;
  mNode : string;
  nNode : string;
  qt : Qc;
  qE : Qc;
  qnu : Qc;
  pressures : list (Qc * string);
}.

Record FEModel3D := mkFEModel3D {
  Nodes : list Node3D;
  Quads : list Quad3D;
}.

#[global] Instance Node3D_eq_dec : EqDecision Node3D.
Proof. solve_decision. Defined.
#[global] Instance Quad3D_eq_dec : EqDecision Quad3D.
Proof. solve_decision. Defined.
#[global] Instance FEModel3D_eq_dec : EqDecision FEModel3D.
Proof. solve_decision. Defined.

(** Modelled from the spec: the constructor [FEModel3D()] is not part of the
    sources at hand; a new model owns no node and no element. *)
Definition FEModel3D_new : FEModel3D := {| Nodes := []; Quads := [] |}.

(** Modelled from the spec: [Node3D(Name, X, Y, Z)] is not part of the
    sources at hand; a node is created with its key, its position and no
    restraint. *)
Definition Node3D_new (name : string) (x y z : Qc) : Node3D :=
  mkNode3D name x y z false false false false false false.

(** Modelled from the spec: [FEModel3D.AddNode] is not part of the sources
    at hand; "create node" adds a node to the model, after the existing
    ones. *)
Definition AddNode (m : FEModel3D) (name : string) (x y z : Qc) : FEModel3D :=
  {| Nodes := Nodes m ++ [Node3D_new name x y z]; Quads := Quads m |}.

(** Modelled from the spec: [FEModel3D.AddQuad] is not part of the sources
    at hand; "create quadrilateral" adds an element with four ordered corner
    references, thickness and material constants and an empty list of
    pressures. Elements reference nodes by key. *)
Definition AddQuad (m : FEModel3D) (name i j mm n : string) (t E nu : Qc)
  : FEModel3D :=
  {| Nodes := Nodes m;
     Quads := Quads m ++ [mkQuad3D name i j mm n t E nu []] |}.

(** Modelled from the spec: [FEModel3D.GetNode] is not part of the sources
    at hand; a key is resolved to the first node of the model that carries
    it. *)
Definition GetNode (m : FEModel3D) (name : string) : option Node3D :=
  list_find (λ n, Name n = name) (Nodes m) ≫= λ p, Some p.2.


(** ** The wall panel *)

(** A load is the tuple [(y_bot, y_top, p_bot, p_top)]. *)
Definition load : Type := Qc * Qc * Qc * Qc.
Definition load_0 (l : load) : Qc := l.1.1.1.
Definition load_1 (l : load) : Qc := l.1.1.2.
Definition load_2 (l : load) : Qc := l.1.2.
Definition load_3 (l : load) : Qc := l.2.

(** The fields [self.nodes] and [self.quads] are initialised to [[]] and
    never used afterwards; they are left out. *)
Record RectWall := mkRectWall {
  width : Qc;
  height : Qc;
  thickness : Qc;
  mesh_size : Qc;
  E : Qc;
  nu : Qc;
  fem : FEModel3D;
  loads : list load;
  bot_support : string;
  top_support : string;
  left_support : string;
  right_support : string;
  analyzed : bool;
}.

#[global] Instance RectWall_eq_dec : EqDecision RectWall.
Proof. solve_decision. Defined.

Definition set_fem (w : RectWall) (m : FEModel3D) : RectWall :=
  mkRectWall (width w) (height w) (thickness w) (mesh_size w) (E w) (nu w)
    m (loads w) (bot_support w) (top_support w) (left_support w)
    (right_support w) (analyzed w).

Definition set_loads (w : RectWall) (ls : list load) : RectWall :=
  mkRectWall (width w) (height w) (thickness w) (mesh_size w) (E w) (nu w)
    (fem w) ls (bot_support w) (top_support w) (left_support w)
    (right_support w) (analyzed w).

Definition set_analyzed (w : RectWall) (b : bool) : RectWall :=
  mkRectWall (width w) (height w) (thickness w) (mesh_size w) (E w) (nu w)
    (fem w) (loads w) (bot_support w) (top_support w) (left_support w)
    (right_support w) b.

(** [RectWall.__init__] *)
Definition RectWall_init (width height thickness E nu mesh_size : Qc)
    (bot_support top_support left_support right_support : string)
  : RectWall :=
  {| width := width; height := height; thickness := thickness;
     mesh_size := mesh_size; E := E; nu := nu;
     fem := FEModel3D_new;
     loads := [];
     bot_support := bot_support; top_support := top_support;
     left_support := left_support; right_support := right_support;
     analyzed := false |}.

(** [RectWall.add_load] *)
Definition add_load (w : RectWall) (y_bot y_top p_bot p_top : Qc)
  : RectWall :=
  set_analyzed (set_loads w (loads w ++ [(y_bot, y_top, p_bot, p_top)]))
    false.


(** ** Meshing: [RectWall.__descritize] *)

(** The local variables of [__descritize] that change while the mesh is
    built, next to the model they build. *)
Record mesh_state := mkMeshState {
  st_fem : FEModel3D;
  pl_id : Z;
  node_id : Z;
  y_prev : Qc;
}.

(** [self.fem.AddNode('N'+str(node_id), x, y, 0.0); node_id += 1] *)
Definition emit_node (st : mesh_state) (x y : Qc) : mesh_state :=
  {| st_fem := AddNode (st_fem st) ("N" +:+ str (node_id st)) x y 0%Qc;
     pl_id := pl_id st;
     node_id := node_id st + 1;
     y_prev := y_prev st |}.

(** The body of the innermost loop that generates quadrilaterals. *)
Definition emit_quad (w : RectWall) (num_cols : Z) (st : mesh_state)
  : mesh_state :=
  let ni := pl_id st
            + Z.max 0 (py_int (Qc_of_Z (pl_id st - 1) / Qc_of_Z num_cols)%Qc) in
  let nj := ni + 1 in
  let nm := nj + (num_cols + 1) in
  let nn := nm - 1 in
  {| st_fem := AddQuad (st_fem st) ("P" +:+ str (pl_id st))
                 ("N" +:+ str ni) ("N" +:+ str nj) ("N" +:+ str nm)
                 ("N" +:+ str nn) (thickness w) (E w) (nu w);
     pl_id := pl_id st + 1;
     node_id := node_id st;
     y_prev := y_prev st |}.

(** [y = [0.0, self.height]] followed by the loop over [self.loads]. The
    order in which [list(set(y))] enumerates the set is not fixed by the
    language; it is the parameter [set_order]. *)
Definition control_points (set_order : list Qc → list Qc) (height : Qc)
    (loads : list load) : list Qc :=
  foldl (λ y load_item,
           merge_sort Qcle
             (set_order (y ++ [load_0 load_item; load_1 load_item])))
        [0%Qc; height] loads.

(** [for i in range(num_cols + 1)]: the bottom row of nodes. *)
Definition bottom_row (pl_width : Qc) (num_cols : Z) (st : mesh_state)
  : mesh_state :=
  foldl (λ st i, emit_node st (Qc_of_Z i * pl_width)%Qc 0%Qc)
        st (seqZ 0 (num_cols + 1)).

(** The nested loops under "Generate nodes". *)
Definition lift_nodes (pl_width pl_height : Qc) (num_rows num_cols : Z)
    (st : mesh_state) : mesh_state :=
  foldl (λ st j,
     foldl (λ st i,
        if decide (j ≠ 0)
        then emit_node st (Qc_of_Z i * pl_width)%Qc
                          (Qc_of_Z j * pl_height + y_prev st)%Qc
        else st)
       st (seqZ 0 (num_cols + 1)))
    st (seqZ 0 (num_rows + 1)).

(** The nested loops under "Generate quadrilaterals". *)
Definition lift_quads (w : RectWall) (num_rows num_cols : Z)
    (st : mesh_state) : mesh_state :=
  foldl (λ st j, foldl (λ st i, emit_quad w num_cols st) st (seqZ 0 num_cols))
        st (seqZ 0 num_rows).

Definition set_y_prev (st : mesh_state) (y : Qc) : mesh_state :=
  {| st_fem := st_fem st; pl_id := pl_id st; node_id := node_id st;
     y_prev := y |}.

(** One iteration of [for control_point in iter_y]. Both divisions come
    before the first node of the lift is added. *)
Definition lift (w : RectWall) (pl_width : Qc) (num_cols : Z)
    (st : mesh_state) (control_point : Qc) : exn + mesh_state :=
  let h := (control_point - y_prev st)%Qc in
  match truediv h (mesh_size w) with
  | inl e => inl e
  | inr q =>
    let num_rows := Z.max 1 (py_round q) in
    match truediv h (Qc_of_Z num_rows) with
    | inl e => inl e
    | inr pl_height =>
      let st := lift_nodes pl_width pl_height num_rows num_cols st in
      let st := lift_quads w num_rows num_cols st in
      inr (set_y_prev st control_point)
    end
  end.

(** [for control_point in iter_y]. When an iteration raises, the wall is
    left with the model as the earlier iterations built it. *)
Fixpoint lifts (w : RectWall) (pl_width : Qc) (num_cols : Z)
    (iter_y : list Qc) (st : mesh_state) : outcome RectWall :=
  match iter_y with
  | [] => Done (set_fem w (st_fem st))
  | control_point :: iter_y =>
    match lift w pl_width num_cols st control_point with
    | inl e => Raised e (set_fem w (st_fem st))
    | inr st => lifts w pl_width num_cols iter_y st
    end
  end.

Definition descritize_with (set_order : list Qc → list Qc) (w : RectWall)
  : outcome RectWall :=
  match truediv (width w) (mesh_size w) with
  | inl e => Raised e w
  | inr q =>
    let num_cols := py_round q in
    match truediv (width w) (Qc_of_Z num_cols) with
    | inl e => Raised e w
    | inr pl_width =>
      let y := control_points set_order (height w) (loads w) in
      (* iter_y = iter(y); next(iter_y) *)
      match y with
      | [] => Raised StopIteration w
      | _ :: iter_y =>
        let st := {| st_fem := fem w; pl_id := 1; node_id := 1;
                     y_prev := 0%Qc |} in
        let st := bottom_row pl_width num_cols st in
        lifts w pl_width num_cols iter_y st
      end
    end
  end.

(** [__descritize], with the set enumerated in order of first insertion. *)
Definition descritize (w : RectWall) : outcome RectWall :=
  descritize_with remove_dups w.

(** ** Edge supports: [RectWall.__define_supports] *)

(** [numpy.isclose(a, b)] with its default tolerances [rtol=1e-05] and
    [atol=1e-08]: [|a - b| <= atol + rtol * |b|]. *)
Definition rtol : Qc := Q2Qc (1 # 100000).
Definition atol : Qc := Q2Qc (1 # 100000000).
Definition isclose (a b : Qc) : bool :=
  bool_decide (Qcabs (a - b) ≤ atol + rtol * Qcabs b)%Qc.

(** [node.SupportDX, node.SupportDY, node.SupportDZ, node.SupportRX,
    node.SupportRY = True, True, True, True, True] *)
Definition restrain5 (node : Node3D) : Node3D :=
  mkNode3D (Name node) (X node) (Y node) (Zcoord node)
    true true true true true (SupportRZ node).

(** [node.SupportDX, node.SupportDY, node.SupportDZ = True, True, True] *)
Definition restrain3 (node : Node3D) : Node3D :=
  mkNode3D (Name node) (X node) (Y node) (Zcoord node)
    true true true (SupportRX node) (SupportRY node) (SupportRZ node).

(** The body of [for node in self.fem.Nodes]. *)
Definition define_supports_node (w : RectWall) (node : Node3D) : Node3D :=
  (* Left edge *)
  if isclose (X node) 0%Qc then
    if decide (left_support w = "Fixed") then restrain5 node
    else if decide (left_support w = "Pinned") then restrain3 node
    else node
  (* Right edge *)
  else if isclose (X node) (width w) then
    if decide (right_support w = "Fixed") then restrain5 node
    else if decide (right_support w = "Pinned") then restrain3 node
    else node
  (* Bottom edge *)
  else if isclose (Y node) 0%Qc then
    if decide (bot_support w = "Fixed") then restrain5 node
    else if decide (bot_support w = "Pinned") then restrain3 node
    else node
  (* Top edge *)
  else if isclose (Y node) (height w) then
    if decide (top_support w = "Fixed") then restrain5 node
    else if decide (top_support w = "Pinned") then restrain3 node
    else node
  else node.

Definition define_supports (w : RectWall) : RectWall :=
  set_fem w {| Nodes := map (define_supports_node w) (Nodes (fem w));
               Quads := Quads (fem w) |}.

(** ** Loading: the first part of [RectWall.analyze] *)

(** [quad.pressures.append([pressure, 'Case 1'])] *)
Definition append_pressure (quad : Quad3D) (pressure : Qc) : Quad3D :=
  mkQuad3D (qName quad) (iNode quad) (jNode quad) (mNode quad) (nNode quad)
    (qt quad) (qE quad) (qnu quad) (pressures quad ++ [(pressure, "Case 1")]).

(** [for load in self.loads], for one quadrilateral whose four nodes have
    the average ordinate [avgY]; [pressure] is the running local variable. *)
Fixpoint load_quad (avgY : Qc) (ls : list load) (pressure : Qc)
    (quad : Quad3D) : outcome Quad3D :=
  match ls with
  | [] => Done quad
  | load :: ls =>
    let y1 := load_0 load in
    let y2 := load_1 load in
    let p1 := load_2 load in
    let p2 := load_3 load in
    if decide ((avgY ≤ y2)%Qc ∧ (y1 ≤ avgY)%Qc) then
      match truediv (p2 - p1) (y2 - y1) with
      | inl e => Raised e quad
      | inr slope =>
        let pressure := (pressure + (slope * (avgY - y1) + p1))%Qc in
        load_quad avgY ls pressure (append_pressure quad pressure)
      end
    else load_quad avgY ls pressure quad
  end.

(** [(i_node.Y + j_node.Y + m_node.Y + n_node.Y)/4], the corner nodes being
    reached through the keys the quadrilateral holds. *)
Definition avgY_of (m : FEModel3D) (quad : Quad3D) : exn + Qc :=
  match GetNode m (iNode quad), GetNode m (jNode quad),
        GetNode m (mNode quad), GetNode m (nNode quad) with
  | Some i_node, Some j_node, Some m_node, Some n_node =>
    inr ((Y i_node + Y j_node + Y m_node + Y n_node) / Qc_of_Z 4)%Qc
  | _, _, _, _ => inl KeyError
  end.

(** [for quad in self.fem.Quads]: [done] are the quadrilaterals already
    loaded, [todo] those still to visit. *)
Fixpoint load_quads (m : FEModel3D) (ls : list load)
    (done todo : list Quad3D) : outcome (list Quad3D) :=
  match todo with
  | [] => Done done
  | quad :: todo =>
    match avgY_of m quad with
    | inl e => Raised e (done ++ quad :: todo)
    | inr avgY =>
      match load_quad avgY ls 0%Qc quad with
      | Raised e quad => Raised e (done ++ quad :: todo)
      | Done quad => load_quads m ls (done ++ [quad]) todo
      end
    end
  end.

(** [analyze], up to and excluding the call [self.fem.Analyze()]: the
    solver and the report of the largest displacement that follow it are
    outside this development. *)
Definition analyze (w : RectWall) : outcome RectWall :=
  match descritize w with
  | Raised e w => Raised e w
  | Done w =>
    let w := define_supports w in
    outcome_map
      (λ quads, set_fem w {| Nodes := Nodes (fem w); Quads := quads |})
      (load_quads (fem w) (loads w) [] (Quads (fem w)))
  end.

(** ** Sections: [PyNite/Section.py] *)

Module Steel.

Local Open Scope R_scope.

(** [a / b] on floats. *)
Definition truediv (a b : R) : exn + R :=
  if Req_dec_T b 0 then inl ZeroDivisionError else inr (a / b).

Definition bind {A B} (x : exn + A) (f : A → exn + B) : exn + B :=
  match x with inl e => inl e | inr a => f a end.

Notation "x ←? e1 ; e2" := (bind e1 (λ x, e2))
  (at level 20, e1 at level 100, e2 at level 200, right associativity).

(** *** Construction *)

(** The values that reach the constructors. *)
Inductive pyval :=
  | VFloat (x : R)
  | VComplex (re im : R)
  | VStr (s : string)
  | VNone
  | VMaterial (fy : R)
  | VModel (materials : gmap string R).

(** An instance is the dictionary of its attributes. *)
Abbreviation instance := (gmap string pyval).

(** [Section.__init__(self, model, name, A, Iy, Iz, J)]: [args] are the
    positional arguments that follow [self]. A call with another number of
    them is a [TypeError]. *)
Definition Section_init (self : instance) (args : list pyval)
  : outcome instance :=
  match args with
  | [model; name; A; Iy; Iz; J] =>
    let self := <["model" := model]> self in
    let self := <["name" := name]> self in
    let self := <["A" := A]> self in
    let self := <["Iy" := Iy]> self in
    let self := <["Iz" := Iz]> self in
    let self := <["J" := J]> self in
    Done self
  | _ => Raised TypeError self
  end.

(** [(a/b)**0.5] *)
Definition sqrt_ratio (a b : pyval) : exn + pyval :=
  match a, b with
  | VFloat a, VFloat b =>
    q ←? truediv a b;
    inr (if Rle_dec 0 q then VFloat (sqrt q) else VComplex 0 (sqrt (- q)))
  | _, _ => inl TypeError
  end.

(** [model.materials[material_name]] *)
Definition lookup_material (model material_name : pyval) : exn + pyval :=
  match model with
  | VModel materials =>
    match material_name with
    | VStr s =>
      match materials !! s with
      | Some fy => inr (VMaterial fy)
      | None => inl KeyError
      end
    | _ => inl KeyError
    end
  | _ => inl AttributeError
  end.

(** [SteelSection.__init__(self, model, name, A, Iy, Iz, J, Zy, Zz,
    material_name)] *)
Definition SteelSection_init (self : instance) (args : list pyval)
  : outcome instance :=
  match args with
  | [model; name; A; Iy; Iz; J; Zy; Zz; material_name] =>
    match Section_init self [model; name; A; Iy; Iz; J; material_name] with
    | Raised e self => Raised e self
    | Done self =>
      match sqrt_ratio Iy A with
      | inl e => Raised e self
      | inr ry =>
        let self := <["ry" := ry]> self in
        match sqrt_ratio Iz A with
        | inl e => Raised e self
        | inr rz =>
          let self := <["rz" := rz]> self in
          let self := <["Zy" := Zy]> self in
          let self := <["Zz" := Zz]> self in
          match lookup_material model material_name with
          | inl e => Raised e self
          | inr material => Done (<["material" := material]> self)
          end
        end
      end
    end
  | _ => Raised TypeError self
  end.

(** *** The yield surface *)

Record Material := mkMaterial { fy : R }.

(** The attributes of a steel section, as [Phi] and [G] read them. *)
Record SteelSection := mkSteelSection {
  A : R;
  Iy : R;
  Iz : R;
  J : R;
  ry : R;
  rz : R;
  Zy : R;
  Zz : R;
  material : Material;
}.

(** [SteelSection.Phi] *)
Definition Phi (self : SteelSection) (fx my mz : R) : exn + R :=
  let Py := fy (material self) * A self in
  let Mpy := fy (material self) * Zy self in
  let Mpz := fy (material self) * Zz self in
  p ←? truediv fx Py;
  m_y ←? truediv my Mpy;
  m_z ←? truediv mz Mpz;
  inr (p^2 + m_z^2 + m_y^4 + 3.5*p^2*m_z^2 + 3*p^6*m_y^2 + 4.5*m_z^4*m_y^2).

(** [SteelSection.G]; the column vector is the list of its six entries. *)
Definition G (self : SteelSection) (fx my mz : R) : exn + list R :=
  let Py := fy (material self) * A self in
  let Mpy := fy (material self) * Zy self in
  let Mpz := fy (material self) * Zz self in
  t1 ←? truediv (18*fx^5*my^2) (Mpy^2*Py^6);
  t2 ←? truediv (2*fx) (Py^2);
  t3 ←? truediv (7.0*fx*mz^2) (Mpz^2*Py^2);
  let dPhi_dfx := t1 + t2 + t3 in
  t1 ←? truediv (6*fx^6*my) (Mpy^2*Py^6);
  t2 ←? truediv (2*my) (Mpy^2);
  t3 ←? truediv (9.0*my*mz^4) (Mpy^2*Mpz^4);
  let dPhi_dmy := t1 + t2 + t3 in
  t1 ←? truediv (7.0*fx^2*mz) (Mpz^2*Py^2);
  t2 ←? truediv (2*mz) (Mpz^2);
  t3 ←? truediv (18.0*my^2*mz^3) (Mpy^2*Mpz^4);
  let dPhi_dmz := t1 + t2 + t3 in
  inr [dPhi_dfx; 0; 0; 0; dPhi_dmy; dPhi_dmz].

Definition epsilon : R := 1e-6.

(** [Section.G], the default of the base class, by central differences of
    the [Phi] of the instance it is called on. *)
Definition Section_G (Phi : R → R → R → exn + R) (fx my mz : R)
  : exn + list R :=
  a ←? Phi (fx + epsilon) my mz;
  b ←? Phi (fx - epsilon) my mz;
  dPhi_dfx ←? truediv (a - b) (2 * epsilon);
  a ←? Phi fx (my + epsilon) mz;
  b ←? Phi fx (my - epsilon) mz;
  dPhi_dmy ←? truediv (a - b) (2 * epsilon);
  a ←? Phi fx my (mz + epsilon);
  b ←? Phi fx my (mz - epsilon);
  dPhi_dmz ←? truediv (a - b) (2 * epsilon);
  inr [dPhi_dfx; 0; 0; 0; dPhi_dmy; dPhi_dmz].

(** *** The values computed by [Phi] and [G]

    When no division fails, [Phi] returns [Phi_value] and [G] the vector
    whose first, fifth and sixth entries are [G_fx], [G_my] and [G_mz];
    [dPhi_dmy] is the partial derivative of [Phi_value] in [my]. *)

Definition Py (self : SteelSection) : R := fy (material self) * A self.
Definition Mpy (self : SteelSection) : R := fy (material self) * Zy self.
Definition Mpz (self : SteelSection) : R := fy (material self) * Zz self.

Definition Phi_value (self : SteelSection) (fx my mz : R) : R :=
  (fx / Py self)^2 + (mz / Mpz self)^2 + (my / Mpy self)^4
  + 3.5 * (fx / Py self)^2 * (mz / Mpz self)^2
  + 3 * (fx / Py self)^6 * (my / Mpy self)^2
  + 4.5 * (mz / Mpz self)^4 * (my / Mpy self)^2.

Definition G_fx (self : SteelSection) (fx my mz : R) : R :=
  18*fx^5*my^2 / (Mpy self^2 * Py self^6) + 2*fx / Py self^2
  + 7.0*fx*mz^2 / (Mpz self^2 * Py self^2).

Definition G_my (self : SteelSection) (fx my mz : R) : R :=
  6*fx^6*my / (Mpy self^2 * Py self^6) + 2*my / Mpy self^2
  + 9.0*my*mz^4 / (Mpy self^2 * Mpz self^4).

Definition G_mz (self : SteelSection) (fx my mz : R) : R :=
  7.0*fx^2*mz / (Mpz self^2 * Py self^2) + 2*mz / Mpz self^2
  + 18.0*my^2*mz^3 / (Mpy self^2 * Mpz self^4).

Definition dPhi_dmy (self : SteelSection) (fx my mz : R) : R :=
  6*fx^6*my / (Mpy self^2 * Py self^6) + 4*my^3 / Mpy self^4
  + 9.0*my*mz^4 / (Mpy self^2 * Mpz self^4).

(** [Section.Phi(self)], whose body is [pass]: it takes no argument after
    [self] and returns [None]. *)
Definition Section_Phi (self : instance) (args : list pyval) : exn + pyval :=
  match args with
  | [] => inr VNone
  | _ => inl TypeError
  end.

(** [self.Phi(fx, my, mz)] on an instance of the base class, as [Section.G]
    evaluates it; a value that is not a number cannot be subtracted. *)
Definition Section_Phi_call (self : instance) (fx my mz : R) : exn + R :=
  match Section_Phi self [VFloat fx; VFloat my; VFloat mz] with
  | inl e => inl e
  | inr (VFloat x) => inr x
  | inr _ => inl TypeError
  end.

End Steel.

(** ** Edge policies, as the specification words them

    A node is classified by the edges it lies on; the edges are consulted
    in the order left, right, bottom, top and the first one that matches
    decides. A policy stands for a set of restraints. *)

Inductive edge := LeftEdge | RightEdge | BottomEdge | TopEdge.

Definition on_edge (w : RectWall) (node : Node3D) (e : edge) : bool :=
  match e with
  | LeftEdge => isclose (X node) 0%Qc
  | RightEdge => isclose (X node) (width w)
  | BottomEdge => isclose (Y node) 0%Qc
  | TopEdge => isclose (Y node) (height w)
  end.

Definition edge_policy (w : RectWall) (e : edge) : string :=
  match e with
  | LeftEdge => left_support w
  | RightEdge => right_support w
  | BottomEdge => bot_support w
  | TopEdge => top_support w
  end.

Definition winning_edge (w : RectWall) (node : Node3D) : option edge :=
  head (filter (λ e, on_edge w node e = true)
               [LeftEdge; RightEdge; BottomEdge; TopEdge]).

(** The restraint flags, in the order DX, DY, DZ, RX, RY, RZ. *)
Definition restraints (node : Node3D) : list bool :=
  [SupportDX node; SupportDY node; SupportDZ node;
   SupportRX node; SupportRY node; SupportRZ node].

Definition policy_restraints (policy : string) : list bool :=
  if decide (policy = "Fixed") then [true; true; true; true; true; false]
  else if decide (policy = "Pinned")
       then [true; true; true; false; false; false]
  else [false; false; false; false; false; false].

(** The policy that applies to a node: that of its winning edge; none, which
    is as good as ["Free"], away from the edges. *)
Definition node_policy (w : RectWall) (node : Node3D) : string :=
  match winning_edge w node with
  | Some e => edge_policy w e
  | None => "Free"
  end.

(** ** Enumerations of a set

    What [list(set(y))] may return: the elements of [y], each once, in some
    order. *)
Definition set_enumeration (set_order : list Qc → list Qc) : Prop :=
  ∀ l, NoDup (set_order l) ∧ ∀ x, x ∈ set_order l ↔ x ∈ l.

(** The number of columns, [round(self.width/self.mesh_size)], when the
    mesh size is not zero. *)
Definition num_cols_of (w : RectWall) : Z :=
  py_round (width w / mesh_size w)%Qc.

(** The key of an element and the keys of its four corners. *)
Definition connectivity (q : Quad3D)
  : string * string * string * string * string :=
  (qName q, iNode q, jNode q, mNode q, nNode q).

(** Two meshing states that agree on all that meshing reads and on the mesh
    built so far: nodes, keys and corners of the elements, counters. *)
Definition mesh_sim (st1 st2 : mesh_state) : Prop :=
  Nodes (st_fem st1) = Nodes (st_fem st2)
  ∧ connectivity <$> Quads (st_fem st1) = connectivity <$> Quads (st_fem st2)
  ∧ pl_id st1 = pl_id st2
  ∧ node_id st1 = node_id st2
  ∧ y_prev st1 = y_prev st2.

(** Two outcomes of meshing with the same mesh. *)
Definition same_mesh (o1 o2 : outcome RectWall) : Prop :=
  match o1, o2 with
  | Done w1, Done w2
  | Raised ZeroDivisionError w1, Raised ZeroDivisionError w2 =>
    Nodes (fem w1) = Nodes (fem w2)
    ∧ connectivity <$> Quads (fem w1) = connectivity <$> Quads (fem w2)
  | _, _ => False
  end.

(** ** The mesh as a grid, as the specification words it

    The rows of nodes sit at the ordinates [row_ordinates]: the bottom row
    at 0, then, for each lift between two successive control points, its
    rows at equal distances, the last of them on the upper control point.
    Nodes are numbered row by row from the bottom, left to right, and
    so are the elements. *)

Definition lift_num_rows (mesh_size y_prev control_point : Qc) : Z :=
  Z.max 1 (py_round ((control_point - y_prev) / mesh_size)%Qc).

Definition lift_rows (mesh_size y_prev control_point : Qc) : list Qc :=
  let h := (control_point - y_prev)%Qc in
  let num_rows := lift_num_rows mesh_size y_prev control_point in
  (λ j, Qc_of_Z j * (h / Qc_of_Z num_rows) + y_prev)%Qc <$> seqZ 1 num_rows.

Fixpoint rows_above (mesh_size y_prev : Qc) (iter_y : list Qc) : list Qc :=
  match iter_y with
  | [] => []
  | control_point :: iter_y =>
    lift_rows mesh_size y_prev control_point
    ++ rows_above mesh_size control_point iter_y
  end.

Definition row_ordinates (w : RectWall) : list Qc :=
  0%Qc :: rows_above (mesh_size w) 0%Qc
            (tail (control_points remove_dups (height w) (loads w))).

(** The quad width, [self.width/num_cols]. *)
Definition pl_width_of (w : RectWall) : Qc :=
  (width w / Qc_of_Z (num_cols_of w))%Qc.

(** A row of [num_cols + 1] nodes at the ordinate [y], numbered from
    [first_id] on. *)
Definition node_row (pl_width : Qc) (num_cols first_id : Z) (y : Qc)
  : list Node3D :=
  (λ i, Node3D_new ("N" +:+ str (first_id + i)) (Qc_of_Z i * pl_width)%Qc
          y 0%Qc) <$> seqZ 0 (num_cols + 1).

Fixpoint node_rows (pl_width : Qc) (num_cols first_id : Z) (ys : list Qc)
  : list Node3D :=
  match ys with
  | [] => []
  | y :: ys =>
    node_row pl_width num_cols first_id y
    ++ node_rows pl_width num_cols (first_id + (num_cols + 1)) ys
  end.

(** The element number [pl_id], with the corners that the index formula
    [ni = pl_id + floor((pl_id - 1)/num_cols)], [nj = ni + 1],
    [nm = nj + num_cols + 1], [nn = nm - 1] selects. *)
Definition quad_of (w : RectWall) (num_cols pl_id : Z) : Quad3D :=
  let ni := pl_id + (pl_id - 1) `div` num_cols in
  let nj := ni + 1 in
  let nm := nj + (num_cols + 1) in
  let nn := nm - 1 in
  mkQuad3D ("P" +:+ str pl_id) ("N" +:+ str ni) ("N" +:+ str nj)
    ("N" +:+ str nm) ("N" +:+ str nn) (thickness w) (E w) (nu w) [].

Definition quad_run (w : RectWall) (num_cols first_id n : Z)
  : list Quad3D :=
  quad_of w num_cols <$> seqZ first_id n.

(** A meshing state after more nodes, or more elements, were added. *)
Definition add_nodes (st : mesh_state) (ns : list Node3D) : mesh_state :=
  {| st_fem := {| Nodes := Nodes (st_fem st) ++ ns;
                  Quads := Quads (st_fem st) |};
     pl_id := pl_id st;
     node_id := node_id st + Z.of_nat (length ns);
     y_prev := y_prev st |}.

Definition add_quads (st : mesh_state) (qs : list Quad3D) : mesh_state :=
  {| st_fem := {| Nodes := Nodes (st_fem st);
                  Quads := Quads (st_fem st) ++ qs |};
     pl_id := pl_id st + Z.of_nat (length qs);
     node_id := node_id st;
     y_prev := y_prev st |}.

(** An end of a band of the wall. *)
Definition band_end (w : RectWall) (b : Qc) : Prop :=
  ∃ l, l ∈ loads w ∧ (b = load_0 l ∨ b = load_1 l).

(** An ordinate at which the model has a node. *)
Definition is_row_boundary (m : FEModel3D) (b : Qc) : Prop :=
  ∃ node, node ∈ Nodes m ∧ Y node = b.

(** The element of the grid row [r] and of the column [c] in the mesh [w']
    of the wall [w]: its number, its key, its corners by the index formula,
    and where these corners are. *)
Definition unit_cell (w w' : RectWall) (r c : nat) : Prop :=
  let num_cols := num_cols_of w in
  let pl_width := pl_width_of w in
  let pl_id := Z.of_nat r * num_cols + Z.of_nat c + 1 in
  let ni := pl_id + (pl_id - 1) `div` num_cols in
  let nj := ni + 1 in
  let nm := nj + (num_cols + 1) in
  let nn := nm - 1 in
  ∃ quad y_r y_r1 i_node j_node m_node n_node,
    Quads (fem w') !! Z.to_nat (pl_id - 1) = Some quad
    ∧ row_ordinates w !! r = Some y_r
    ∧ row_ordinates w !! S r = Some y_r1
    ∧ qName quad = "P" +:+ str pl_id
    ∧ iNode quad = "N" +:+ str ni ∧ jNode quad = "N" +:+ str nj
    ∧ mNode quad = "N" +:+ str nm ∧ nNode quad = "N" +:+ str nn
    ∧ GetNode (fem w') (iNode quad) = Some i_node
    ∧ GetNode (fem w') (jNode quad) = Some j_node
    ∧ GetNode (fem w') (mNode quad) = Some m_node
    ∧ GetNode (fem w') (nNode quad) = Some n_node
    ∧ X i_node = (Qc_of_Z (Z.of_nat c) * pl_width)%Qc ∧ Y i_node = y_r
    ∧ X j_node = (Qc_of_Z (Z.of_nat c + 1) * pl_width)%Qc ∧ Y j_node = y_r
    ∧ X m_node = (Qc_of_Z (Z.of_nat c + 1) * pl_width)%Qc ∧ Y m_node = y_r1
    ∧ X n_node = (Qc_of_Z (Z.of_nat c) * pl_width)%Qc ∧ Y n_node = y_r1.

(** ** Loading, as sums over the bands

    A band contains an ordinate when the ordinate is between its two ends,
    these included; its pressure there is interpolated between the
    pressures at its ends. *)
Definition band_contains (avgY : Qc) (l : load) : Prop :=
  (avgY ≤ load_1 l)%Qc ∧ (load_0 l ≤ avgY)%Qc.

#[global] Instance band_contains_dec avgY l : Decision (band_contains avgY l).
Proof. unfold band_contains. apply _. Defined.

Definition band_pressure (avgY : Qc) (l : load) : Qc :=
  ((load_3 l - load_2 l) / (load_1 l - load_0 l) * (avgY - load_0 l)
   + load_2 l)%Qc.

(** The pressures of the bands of [ls] that contain [avgY], in the order
    of the bands. *)
Definition contributions (avgY : Qc) (ls : list load) : list Qc :=
  band_pressure avgY <$> filter (band_contains avgY) ls.

Definition sum_list (xs : list Qc) : Qc := foldr Qcplus 0%Qc xs.

(** The sums [p + x1], [p + x1 + x2], ... *)
Fixpoint running_sums (p : Qc) (xs : list Qc) : list Qc :=
  match xs with
  | [] => []
  | x :: xs => (p + x)%Qc :: running_sums (p + x)%Qc xs
  end.

(** An element with more entries in its list of pressures. *)
Definition add_pressures (quad : Quad3D) (ps : list (Qc * string))
  : Quad3D :=
  mkQuad3D (qName quad) (iNode quad) (jNode quad) (mNode quad) (nNode quad)
    (qt quad) (qE quad) (qnu quad) (pressures quad ++ ps).

(** What loading leaves on an element: the running sums of the pressures
    of the bands that contain its centroid. *)
Definition loaded (m : FEModel3D) (ls : list load) (quad quad' : Quad3D)
  : Prop :=
  ∃ avgY,
    avgY_of m quad = inr avgY
    ∧ quad' = add_pressures quad
                ((λ s, (s, "Case 1")) <$>
                   running_sums 0%Qc (contributions avgY ls)).

(** ** Reporting: the end of [analyze], and the grid of the plots *)

(** The exceptions of the code below: those above, and two more. *)
Inductive report_exn :=
  | Core (e : exn)
  | IndexError
  | ValueError.

#[global] Instance report_exn_eq_dec : EqDecision report_exn.
Proof. solve_decision. Defined.

(** The search for the largest displacement that ends [analyze], after the
    solver; [analyze] above stops before the solver, so the search is
    modelled on its own. The argument lists the dictionaries [node.DZ] of
    the nodes of the model, in the order of the nodes, as the solver
    leaves them.

    [DZ = self.fem.Nodes[0].DZ['Combo 1']], then the loop over the nodes. *)
Definition max_displacement_step (DZ : report_exn + Qc)
    (node_DZ : gmap string Qc) : report_exn + Qc :=
  match DZ with
  | inl e => inl e
  | inr DZ =>
    match node_DZ !! "Combo 1" with
    | None => inl (Core KeyError)
    | Some d => inr (if decide (Qcabs DZ < Qcabs d)%Qc then d else DZ)
    end
  end.

Definition max_displacement (nodes_DZ : list (gmap string Qc))
  : report_exn + Qc :=
  match nodes_DZ with
  | [] => inl IndexError
  | first :: _ =>
    match first !! "Combo 1" with
    | None => inl (Core KeyError)
    | Some DZ => foldl max_displacement_step (inr DZ) nodes_DZ
    end
  end.

(** The first loop of [plot_forces] and of [plot_disp]: the abscissae of
    the first row of nodes. [nodes] are the nodes from index [i] on, [x] is
    the list built so far; [self.fem.Nodes[i+1]] fails on the last node. *)
Fixpoint first_row_x (nodes : list Node3D) (x : list Qc)
  : report_exn + list Qc :=
  match nodes with
  | [] => inr x
  | node :: rest =>
    let x := x ++ [X node] in
    match rest with
    | [] => inl IndexError
    | next :: _ =>
      if decide (X next < X node)%Qc then inr x else first_row_x rest x
    end
  end.


(** The loop over the nodes that collects the ordinates: the body, on the
    pair of [y] and [y_prev], and the whole. *)
Definition unique_y_step (st : list Qc * Qc) (node : Node3D)
  : list Qc * Qc :=
  if decide (st.2 < Y node)%Qc then (st.1 ++ [Y node], Y node) else st.

Definition unique_y (nodes : list Node3D) : report_exn + list Qc :=
  match nodes with
  | [] => inl IndexError
  | first :: _ => inr (foldl unique_y_step ([Y first], Y first) nodes).1
  end.


(** ** The range of floats

    Floats are idealised as exact numbers, so the model has no overflow.
    [float_max] is the largest finite float, [sys.float_info.max]; a
    quotient of two floats whose exact value is within it is a finite
    float, on which [round] does not raise an [OverflowError]. Statements
    that say that a call returns ask for it where the code rounds. *)
Definition float_max : Qc := Qc_of_Z (2 ^ 1024 - 2 ^ 971).

Definition float_range (x : Qc) : Prop := (Qcabs x ≤ float_max)%Qc.

(** ** Concrete inputs *)

Definition qz (n : Z) : Qc := Qc_of_Z n.

(** [RectWall(width, height, 1, mesh_size=mesh_size)], the other arguments
    at their defaults. *)
Definition plain_wall (width height mesh_size : Z) : RectWall :=
  RectWall_init (qz width) (qz height) (qz 1) (qz 3824) (Q2Qc (3 # 10))
    (qz mesh_size) "Pinned" "Pinned" "Free" "Free".

(** A 10 by 10 wall meshed at 5. *)
Definition wall_10_10 : RectWall := plain_wall 10 10 5.

(** Two bands over the full height, of uniform pressures 1 and 2. *)
Definition wall_two_bands : RectWall :=
  add_load (add_load wall_10_10 (qz 0) (qz 10) (qz 1) (qz 1))
    (qz 0) (qz 10) (qz 2) (qz 2).

(** A wall narrower than half the mesh size. *)
Definition wall_narrow : RectWall := plain_wall 1 1 4.

(** A wall of height zero. *)
Definition wall_flat : RectWall := plain_wall 10 0 5.




(** A band that starts below the bottom of the wall. *)
Definition wall_band_below : RectWall :=
  add_load (plain_wall 10 20 5) (qz (-5)) (qz 10) (qz 1) (qz 1).

(** A band inside the wall. *)
Definition wall_band_inside : RectWall :=
  add_load (plain_wall 10 20 5) (qz 3) (qz 10) (qz 1) (qz 2).

(** A steel section with [fy = A = Zy = Zz = 1]. *)
Definition unit_section : Steel.SteelSection :=
  Steel.mkSteelSection 1 1 1 1 1 1 1 1 (Steel.mkMaterial 1).

(** A wall under one uniform band, analysed. *)
Definition wall_inside_analysed : RectWall :=
  outcome_state (analyze wall_band_inside).

(** The displacements of three nodes: 1, -3 and 3. *)
Definition three_displacements : list (gmap string Qc) :=
  [ {["Combo 1" := qz 1]}; {["Combo 1" := qz (-3)]};
    {["Combo 1" := qz 3]} ].

(** A wall with a band, fixed on its left edge and pinned on the others. *)
Definition wall_fixed_left : RectWall :=
  add_load
    (RectWall_init (qz 10) (qz 20) (qz 1) (qz 3824) (Q2Qc (3 # 10)) (qz 5)
       "Pinned" "Pinned" "Fixed" "Pinned")
    (qz 3) (qz 10) (qz 1) (qz 2).

(** * Properties *)

(** Equalities between closed terms are decided by computation. *)
Ltac by_compute :=
  match goal with
  | |- ?P => apply (bool_decide_eq_true_1 P); vm_compute; reflexivity
  end.

(** ** Construction of steel sections *)

(** C3: whatever the arguments, constructing a [SteelSection] raises a
    [TypeError], and the instance has no attribute assigned when it does:
    either the call itself is ill-formed, or the seven positional arguments
    it forwards are rejected by [Section.__init__], which takes six. *)
Theorem SteelSection_init_raises (self : Steel.instance)
    (args : list Steel.pyval) :
  Steel.SteelSection_init self args = Raised TypeError self.
Proof.
  unfold Steel.SteelSection_init.
  do 10 (destruct args as [|? args]; [reflexivity|]); reflexivity.
Qed.

Example SteelSection_init_W8x31 :
  Steel.SteelSection_init ∅
    [Steel.VModel {["Steel" := 50%R]}; Steel.VStr "W8x31";
     Steel.VFloat 9.13; Steel.VFloat 37.1; Steel.VFloat 110;
     Steel.VFloat 0.536; Steel.VFloat 14.1; Steel.VFloat 30.4;
     Steel.VStr "Steel"]
  = Raised TypeError ∅.
Proof. reflexivity. Qed.

(** [Section.__init__] itself accepts six arguments. *)
Example Section_init_six (a b c d e f : Steel.pyval) :
  ∃ self, Steel.Section_init ∅ [a; b; c; d; e; f] = Done self
          ∧ self !! "J" = Some f.
Proof. eexists; split; [reflexivity|]. by rewrite lookup_insert_eq. Qed.

(** ** The yield surface and its gradient *)

(** The decimal constants of the source, as fractions. *)
Lemma decimals :
  (3.5 = 7 / 2 ∧ 4.5 = 9 / 2 ∧ 7.0 = 7 ∧ 9.0 = 9 ∧ 18.0 = 18)%R.
Proof. repeat split; lra. Qed.

Ltac decimal_field :=
  destruct decimals as (E1 & E2 & E3 & E4 & E5);
  rewrite ?E1, ?E2, ?E3, ?E4, ?E5; clear E1 E2 E3 E4 E5; field.

Section yield_surface.
Local Open Scope R_scope.

Lemma truediv_ok (a b : R) : b ≠ 0 → Steel.truediv a b = inr (a / b).
Proof. intros Hb. unfold Steel.truediv. by destruct (Req_dec_T b 0). Qed.

Lemma truediv_zero (a : R) : Steel.truediv a 0 = inl ZeroDivisionError.
Proof. unfold Steel.truediv. by destruct (Req_dec_T 0 0). Qed.

(** The derivative of a monomial in [x / d]. *)
Lemma derivable_pt_lim_scaled_pow (c d : R) (n : nat) (x : R) :
  derivable_pt_lim (λ x, c * (x / d) ^ n) x
    (c * (INR n * (x / d) ^ pred n * / d)).
Proof.
  apply derivable_pt_lim_scal.
  replace (INR n * (x / d) ^ pred n * / d)
    with (INR n * (x / d) ^ pred n * (1 * / d + x * 0)).
  - apply (derivable_pt_lim_comp (λ x, x / d) (λ y, y ^ n)).
    + apply (derivable_pt_lim_mult id (λ _, / d)).
      * apply derivable_pt_lim_id.
      * apply derivable_pt_lim_const.
    + apply derivable_pt_lim_pow.
  - ring.
Qed.

Lemma derivable_pt_lim_ext (f g : R → R) (x l : R) :
  (∀ y, f y = g y) → derivable_pt_lim f x l → derivable_pt_lim g x l.
Proof.
  intros Hfg Hf eps Heps. destruct (Hf eps Heps) as [delta Hd].
  exists delta. intros h Hh Hlt. rewrite <- !Hfg. by apply Hd.
Qed.

Variable self : Steel.SteelSection.
Let Py := Steel.Py self.
Let Mpy := Steel.Mpy self.
Let Mpz := Steel.Mpz self.
Hypothesis Py_pos : 0 < Py.
Hypothesis Mpy_pos : 0 < Mpy.
Hypothesis Mpz_pos : 0 < Mpz.

Lemma Phi_returns (fx my mz : R) :
  Steel.Phi self fx my mz = inr (Steel.Phi_value self fx my mz).
Proof.
  unfold Steel.Phi, Steel.Phi_value.
  fold (Steel.Py self) (Steel.Mpy self) (Steel.Mpz self). fold Py Mpy Mpz.
  rewrite !truediv_ok by lra. reflexivity.
Qed.

Lemma G_returns (fx my mz : R) :
  Steel.G self fx my mz
  = inr [Steel.G_fx self fx my mz; 0; 0; 0; Steel.G_my self fx my mz;
         Steel.G_mz self fx my mz].
Proof.
  unfold Steel.G, Steel.G_fx, Steel.G_my, Steel.G_mz.
  fold (Steel.Py self) (Steel.Mpy self) (Steel.Mpz self). fold Py Mpy Mpz.
  assert (Py ^ 2 ≠ 0 ∧ Mpy ^ 2 ≠ 0 ∧ Mpz ^ 2 ≠ 0) as (? & ? & ?)
    by (repeat split; apply pow_nonzero; lra).
  assert (Mpy ^ 2 * Py ^ 6 ≠ 0)
    by (apply Rmult_integral_contrapositive_currified;
        [|apply pow_nonzero]; lra).
  assert (Mpz ^ 2 * Py ^ 2 ≠ 0)
    by (by apply Rmult_integral_contrapositive_currified).
  assert (Mpy ^ 2 * Mpz ^ 4 ≠ 0)
    by (apply Rmult_integral_contrapositive_currified;
        [|apply pow_nonzero]; lra).
  rewrite !truediv_ok by done. reflexivity.
Qed.

(** The first entry of [G] is the partial derivative of [Phi] in [fx]. *)
Lemma G_fx_is_dPhi_dfx (fx my mz : R) :
  derivable_pt_lim (λ fx, Steel.Phi_value self fx my mz) fx
    (Steel.G_fx self fx my mz).
Proof.
  pose proof (derivable_pt_lim_scaled_pow 1 Py 2 fx) as H1.
  pose proof (derivable_pt_lim_scaled_pow (3.5 * (mz / Mpz)^2) Py 2 fx) as H2.
  pose proof (derivable_pt_lim_scaled_pow (3 * (my / Mpy)^2) Py 6 fx) as H3.
  pose proof (derivable_pt_lim_const
    ((mz / Mpz)^2 + (my / Mpy)^4 + 4.5 * (mz / Mpz)^4 * (my / Mpy)^2) fx) as H4.
  pose proof (derivable_pt_lim_plus _ _ _ _ _
    (derivable_pt_lim_plus _ _ _ _ _
      (derivable_pt_lim_plus _ _ _ _ _ H1 H2) H3) H4) as H.
  eapply derivable_pt_lim_ext in H.
  - replace (Steel.G_fx self fx my mz) with
      (1 * (INR 2 * (fx / Py) ^ pred 2 * / Py)
       + 3.5 * (mz / Mpz) ^ 2 * (INR 2 * (fx / Py) ^ pred 2 * / Py)
       + 3 * (my / Mpy) ^ 2 * (INR 6 * (fx / Py) ^ pred 6 * / Py) + 0);
      [exact H|].
    unfold Steel.G_fx. fold Py Mpy Mpz. simpl. decimal_field. lra.
  - intros y. unfold Steel.Phi_value, plus_fct, fct_cte.
    fold Py Mpy Mpz. ring.
Qed.

(** The last entry of [G] is the partial derivative of [Phi] in [mz]. *)
Lemma G_mz_is_dPhi_dmz (fx my mz : R) :
  derivable_pt_lim (λ mz, Steel.Phi_value self fx my mz) mz
    (Steel.G_mz self fx my mz).
Proof.
  pose proof (derivable_pt_lim_scaled_pow 1 Mpz 2 mz) as H1.
  pose proof (derivable_pt_lim_scaled_pow (3.5 * (fx / Py)^2) Mpz 2 mz) as H2.
  pose proof (derivable_pt_lim_scaled_pow (4.5 * (my / Mpy)^2) Mpz 4 mz) as H3.
  pose proof (derivable_pt_lim_const
    ((fx / Py)^2 + (my / Mpy)^4 + 3 * (fx / Py)^6 * (my / Mpy)^2) mz) as H4.
  pose proof (derivable_pt_lim_plus _ _ _ _ _
    (derivable_pt_lim_plus _ _ _ _ _
      (derivable_pt_lim_plus _ _ _ _ _ H1 H2) H3) H4) as H.
  eapply derivable_pt_lim_ext in H.
  - replace (Steel.G_mz self fx my mz) with
      (1 * (INR 2 * (mz / Mpz) ^ pred 2 * / Mpz)
       + 3.5 * (fx / Py) ^ 2 * (INR 2 * (mz / Mpz) ^ pred 2 * / Mpz)
       + 4.5 * (my / Mpy) ^ 2 * (INR 4 * (mz / Mpz) ^ pred 4 * / Mpz) + 0);
      [exact H|].
    unfold Steel.G_mz. fold Py Mpy Mpz. simpl. decimal_field. lra.
  - intros y. unfold Steel.Phi_value, plus_fct, fct_cte.
    fold Py Mpy Mpz. ring.
Qed.

(** The partial derivative of [Phi] in [my]: the term [my_r^4]
    contributes [4*my^3/Mpy^4]. *)
Lemma dPhi_dmy_correct (fx my mz : R) :
  derivable_pt_lim (λ my, Steel.Phi_value self fx my mz) my
    (Steel.dPhi_dmy self fx my mz).
Proof.
  pose proof (derivable_pt_lim_scaled_pow 1 Mpy 4 my) as H1.
  pose proof (derivable_pt_lim_scaled_pow (3 * (fx / Py)^6) Mpy 2 my) as H2.
  pose proof (derivable_pt_lim_scaled_pow (4.5 * (mz / Mpz)^4) Mpy 2 my) as H3.
  pose proof (derivable_pt_lim_const
    ((fx / Py)^2 + (mz / Mpz)^2 + 3.5 * (fx / Py)^2 * (mz / Mpz)^2) my) as H4.
  pose proof (derivable_pt_lim_plus _ _ _ _ _
    (derivable_pt_lim_plus _ _ _ _ _
      (derivable_pt_lim_plus _ _ _ _ _ H1 H2) H3) H4) as H.
  eapply derivable_pt_lim_ext in H.
  - replace (Steel.dPhi_dmy self fx my mz) with
      (1 * (INR 4 * (my / Mpy) ^ pred 4 * / Mpy)
       + 3 * (fx / Py) ^ 6 * (INR 2 * (my / Mpy) ^ pred 2 * / Mpy)
       + 4.5 * (mz / Mpz) ^ 4 * (INR 2 * (my / Mpy) ^ pred 2 * / Mpy) + 0);
      [exact H|].
    unfold Steel.dPhi_dmy. fold Py Mpy Mpz. simpl. decimal_field. lra.
  - intros y. unfold Steel.Phi_value, plus_fct, fct_cte.
    fold Py Mpy Mpz. ring.
Qed.

(** The fifth entry of [G] differs from that derivative by
    [2*my/Mpy^2 - 4*my^3/Mpy^4]. *)
Lemma G_my_defect (fx my mz : R) :
  Steel.G_my self fx my mz - Steel.dPhi_dmy self fx my mz
  = 2*my / Mpy^2 - 4*my^3 / Mpy^4.
Proof.
  unfold Steel.G_my, Steel.dPhi_dmy. fold Py Mpy Mpz.
  decimal_field. lra.
Qed.

End yield_surface.

(** C2: the fifth entry of the closed-form gradient is not the partial
    derivative of [Phi] in [my]. For the section with unit capacities, at
    [(fx, my, mz) = (0, 1, 0)], [G] returns 2 in that slot, whereas
    [my ↦ Phi 0 my 0] has derivative 4 at 1, and the central difference of
    the base class, taken on this [Phi], returns [4 + 4*epsilon^2]. *)
Theorem G_my_entry_is_not_dPhi_dmy :
  Steel.G unit_section 0%R 1%R 0%R = inr [0; 0; 0; 0; 2; 0]%R
  ∧ (∃ f : R → R,
       (∀ my, Steel.Phi unit_section 0%R my 0%R = inr (f my))
       ∧ derivable_pt_lim f 1%R 4%R)
  ∧ Steel.Section_G (Steel.Phi unit_section) 0%R 1%R 0%R
    = inr [0; 0; 0; 0; 4 + 4 * Steel.epsilon ^ 2; 0]%R.
Proof.
  assert (Hpos : (0 < 1 * 1)%R) by lra.
  split; [|split].
  - rewrite (G_returns unit_section Hpos Hpos Hpos).
    unfold Steel.G_fx, Steel.G_my, Steel.G_mz, Steel.Py, Steel.Mpy, Steel.Mpz.
    simpl.
    do 2 f_equal; [|do 4 f_equal; [|f_equal]]; decimal_field; lra.
  - exists (λ my, Steel.Phi_value unit_section 0%R my 0%R). split.
    + intros my. apply (Phi_returns unit_section Hpos Hpos Hpos).
    + replace 4%R with (Steel.dPhi_dmy unit_section 0%R 1%R 0%R).
      * apply (dPhi_dmy_correct unit_section); exact Hpos.
      * unfold Steel.dPhi_dmy, Steel.Py, Steel.Mpy, Steel.Mpz. simpl.
        decimal_field; lra.
  - unfold Steel.Section_G.
    rewrite !(Phi_returns unit_section Hpos Hpos Hpos).
    assert (He : (2 * Steel.epsilon ≠ 0)%R) by (unfold Steel.epsilon; lra).
    simpl. rewrite !truediv_ok by exact He. simpl.
    assert (He' : (Steel.epsilon ≠ 0)%R) by lra.
    generalize dependent Steel.epsilon. intros e _ He.
    unfold Steel.Phi_value, Steel.Py, Steel.Mpy, Steel.Mpz. simpl.
    do 2 f_equal; [|do 4 f_equal; [|f_equal]]; decimal_field; lra.
Qed.

(** ** Edge supports *)

Lemma winning_edge_cases (w : RectWall) (node : Node3D) :
  winning_edge w node =
    if isclose (X node) 0%Qc then Some LeftEdge
    else if isclose (X node) (width w) then Some RightEdge
    else if isclose (Y node) 0%Qc then Some BottomEdge
    else if isclose (Y node) (height w) then Some TopEdge
    else None.
Proof.
  unfold winning_edge.
  rewrite !filter_cons, filter_nil. unfold on_edge.
  generalize (isclose (X node) 0%Qc) (isclose (X node) (width w))
             (isclose (Y node) 0%Qc) (isclose (Y node) (height w)).
  intros [] [] [] []; repeat case_decide; done.
Qed.

(** What the body of the loop does to one node: key and position are left
    alone, and the restraints of the policy of the winning edge are added
    to those the node has. *)
Lemma define_supports_node_precedence (w : RectWall) (node : Node3D) :
  let node' := define_supports_node w node in
  Name node' = Name node ∧ X node' = X node ∧ Y node' = Y node
  ∧ Zcoord node' = Zcoord node
  ∧ restraints node'
    = zip_with orb (restraints node) (policy_restraints (node_policy w node))
  ∧ SupportRZ node' = SupportRZ node.
Proof.
  unfold node_policy, define_supports_node.
  rewrite winning_edge_cases.
  generalize (isclose (X node) 0%Qc) (isclose (X node) (width w))
             (isclose (Y node) 0%Qc) (isclose (Y node) (height w)).
  unfold policy_restraints, edge_policy, restrain5, restrain3, restraints.
  destruct node as [nm x y z dx dy dz rx ry rz].
  intros [] [] [] []; cbn -[decide]; repeat case_decide; cbn;
    try congruence; rewrite ?orb_true_r, ?orb_false_r; done.
Qed.

(** C9: boundary assignment visits every node of the model, in place: it
    keeps the number and the order of the nodes and the elements, leaves
    key and position of each node alone and adds to its restraints exactly
    those of the policy of its winning edge, the edges being consulted in
    the order left, right, bottom, top; so a corner gets the restraints of
    one edge, not of two. [Fixed] stands for the three translations and
    the rotations about X and Y, [Pinned] for the three translations,
    anything else ([Free]) for nothing; the rotation about Z is never
    restrained. On a node without restraints, as meshing creates them, the
    result is exactly the set of the winning policy. *)
Theorem define_supports_precedence (w : RectWall) :
  let w' := define_supports w in
  Quads (fem w') = Quads (fem w)
  ∧ length (Nodes (fem w')) = length (Nodes (fem w))
  ∧ (∀ (i : nat) node, Nodes (fem w) !! i = Some node →
       ∃ node',
         Nodes (fem w') !! i = Some node'
         ∧ Name node' = Name node ∧ X node' = X node ∧ Y node' = Y node
         ∧ Zcoord node' = Zcoord node
         ∧ restraints node'
           = zip_with orb (restraints node)
               (policy_restraints (node_policy w node))
         ∧ SupportRZ node' = SupportRZ node
         ∧ (restraints node = [false; false; false; false; false; false] →
            restraints node' = policy_restraints (node_policy w node)))
  ∧ policy_restraints "Fixed" = [true; true; true; true; true; false]
  ∧ policy_restraints "Pinned" = [true; true; true; false; false; false]
  ∧ policy_restraints "Free" = [false; false; false; false; false; false].
Proof.
  cbv zeta. unfold define_supports. cbn [set_fem fem Nodes Quads].
  split; [done|]. split; [apply length_map|]. split.
  - intros i node Hi. exists (define_supports_node w node).
    split.
    { change (map (define_supports_node w) (Nodes (fem w)))
        with (define_supports_node w <$> Nodes (fem w)).
      by rewrite list_lookup_fmap, Hi. }
    destruct (define_supports_node_precedence w node)
      as (Hn & Hx & Hy & Hz & Hr & Hrz).
    do 6 (split; [done|]).
    intros Hnone. rewrite Hr, Hnone.
    unfold policy_restraints. repeat case_decide; done.
  - unfold policy_restraints. repeat case_decide; done.
Qed.

(** A corner with a pinned left edge and a fixed bottom edge is pinned: the
    rotations that the bottom edge would restrain are left free. *)
Example corner_takes_left_policy :
  let w := RectWall_init (qz 10) (qz 10) (qz 1) (qz 3824) (Q2Qc (3 # 10))
             (qz 5) "Fixed" "Fixed" "Pinned" "Pinned" in
  restraints (define_supports_node w (Node3D_new "N1" 0%Qc 0%Qc 0%Qc))
  = [true; true; true; false; false; false].
Proof. reflexivity. Qed.

(** ** Loading *)

(** C1: with two bands that both contain the centroid of an element, the
    loading step appends two entries to the pressure list of that element,
    the running sums [p1] and [p1 + p2], not the single entry [p1 + p2]: on
    [wall_two_bands] ([p1 = 1], [p2 = 2]) every quadrilateral ends with the
    entries 1 and 3. *)
Theorem overlapping_bands_append_running_sums :
  ∃ w', analyze wall_two_bands = Done w'
        ∧ map pressures (Quads (fem w'))
          = replicate 4 [(qz 1, "Case 1"); (qz 3, "Case 1")].
Proof.
  exists (outcome_state (analyze wall_two_bands)). split; by_compute.
Qed.

(** With a single band the entry is the interpolated pressure. *)
Example single_band_pressure :
  map pressures (Quads (fem (outcome_state (analyze wall_band_inside))))
  = [[]; []; [(Q2Qc (3 # 2), "Case 1")]; [(Q2Qc (3 # 2), "Case 1")];
     []; []; []; []].
Proof. by_compute. Qed.

(** ** Meshing: failures *)

(** C5: on a wall narrower than half the mesh size the number of columns is
    [round(1/4) = 0], it is not raised to 1, and the quad width
    [width/num_cols] is a division by zero: no mesh is produced. *)
Theorem descritize_narrow_wall_raises :
  py_round (width wall_narrow / mesh_size wall_narrow) = 0
  ∧ descritize wall_narrow = Raised ZeroDivisionError wall_narrow.
Proof. split; by_compute. Qed.

(** The rows of a lift, on the other hand, are at least one. *)
Example descritize_short_wall :
  ∃ w', descritize (plain_wall 4 1 4) = Done w'
        ∧ length (Nodes (fem w')) = 4%nat ∧ length (Quads (fem w')) = 1%nat.
Proof.
  exists (outcome_state (descritize (plain_wall 4 1 4))).
  split; [|split]; by_compute.
Qed.

(** C4, refuted: a wall of height 0 is meshed without any error, into six
    nodes and two quadrilaterals of height 0. *)
Lemma descritize_flat_wall_succeeds :
  height wall_flat = 0%Qc
  ∧ ∃ w', descritize wall_flat = Done w'
          ∧ length (Nodes (fem w')) = 6%nat
          ∧ length (Quads (fem w')) = 2%nat.
Proof.
  split; [by_compute|].
  exists (outcome_state (descritize wall_flat)). split; [|split]; by_compute.
Qed.

(** ** Numbers *)

Lemma Qc_of_Z_eq_0 (n : Z) : Qc_of_Z n = 0%Qc → n = 0.
Proof.
  intros H. apply (f_equal this) in H. simpl in H.
  unfold inject_Z in H. by injection H.
Qed.

Lemma Qc_of_Z_0 : Qc_of_Z 0 = 0%Qc.
Proof. by apply Qc_is_canon. Qed.

Lemma truediv_Some (a b : Qc) : b ≠ 0%Qc → truediv a b = inr (a / b)%Qc.
Proof. intros Hb. unfold truediv. by rewrite decide_False. Qed.

Lemma truediv_None (a : Qc) : truediv a 0%Qc = inl ZeroDivisionError.
Proof. unfold truediv. by rewrite decide_True. Qed.

Lemma truediv_int (a : Qc) (n : Z) :
  n ≠ 0 → truediv a (Qc_of_Z n) = inr (a / Qc_of_Z n)%Qc.
Proof. intros Hn. apply truediv_Some. by intros ?%Qc_of_Z_eq_0. Qed.

(** ** Control points *)

Lemma control_points_snoc set_order h ls l :
  control_points set_order h (ls ++ [l])
  = merge_sort Qcle
      (set_order (control_points set_order h ls ++ [load_0 l; load_1 l])).
Proof. unfold control_points. by rewrite foldl_snoc. Qed.

Lemma elem_of_merge_sort (l : list Qc) (x : Qc) :
  x ∈ merge_sort Qcle l ↔ x ∈ l.
Proof. by rewrite merge_sort_Permutation. Qed.

(** The control points are 0, the height and the ends of the bands. *)
Lemma elem_of_control_points set_order h ls x :
  set_enumeration set_order →
  x ∈ control_points set_order h ls
  ↔ x = 0%Qc ∨ x = h
    ∨ ∃ l, l ∈ ls ∧ (x = load_0 l ∨ x = load_1 l).
Proof.
  intros Hset. induction ls as [|l ls IH] using rev_ind.
  - unfold control_points. simpl. rewrite !elem_of_cons, elem_of_nil.
    split; [intros [?|[?|[]]]; auto|].
    intros [?|[?|(l & Hl & _)]]; auto. by apply elem_of_nil in Hl.
  - rewrite control_points_snoc, elem_of_merge_sort.
    rewrite (proj2 (Hset _)), elem_of_app, IH, !elem_of_cons, elem_of_nil.
    split.
    + intros [[?|[?|(l' & Hl' & Hx)]]|[->|[->|[]]]]; auto.
      * right; right. exists l'. split; [|done].
        apply elem_of_app; auto.
      * right; right. exists l. split; [|auto].
        apply elem_of_app. right. by apply list_elem_of_singleton.
      * right; right. exists l. split; [|auto].
        apply elem_of_app. right. by apply list_elem_of_singleton.
    + intros [?|[?|(l' & [Hl'| ->%list_elem_of_singleton]%elem_of_app & Hx)]];
        auto.
      * left. right; right. eauto.
      * destruct Hx; auto.
Qed.

Lemma control_points_nonempty set_order h ls :
  set_enumeration set_order → control_points set_order h ls ≠ [].
Proof.
  intros Hset Hnil.
  assert (H0 : 0%Qc ∈ control_points set_order h ls)
    by (apply elem_of_control_points; auto).
  rewrite Hnil in H0. by apply elem_of_nil in H0.
Qed.

Lemma set_enumeration_remove_dups : set_enumeration remove_dups.
Proof.
  intros l. split; [apply NoDup_remove_dups|].
  intros x. apply elem_of_remove_dups.
Qed.

(** ** Meshing in exact arithmetic

    On exact numbers the only failures of meshing are those of its first
    two divisions. *)

Lemma lift_returns w pl_width num_cols st control_point :
  mesh_size w ≠ 0%Qc →
  ∃ st', lift w pl_width num_cols st control_point = inr st'.
Proof.
  intros Hm. unfold lift. rewrite truediv_Some by done.
  rewrite truediv_int by lia. eauto.
Qed.

Lemma lifts_returns w pl_width num_cols iter_y st :
  mesh_size w ≠ 0%Qc →
  ∃ w', lifts w pl_width num_cols iter_y st = Done w'.
Proof.
  intros Hm. revert st.
  induction iter_y as [|control_point iter_y IH]; intros st; simpl.
  - eauto.
  - destruct (lift_returns w pl_width num_cols st control_point Hm)
      as [st' ->]. apply IH.
Qed.

Lemma descritize_raises (w : RectWall) :
  mesh_size w = 0%Qc ∨ num_cols_of w = 0 →
  descritize w = Raised ZeroDivisionError w.
Proof.
  unfold descritize, descritize_with, num_cols_of.
  destruct (decide (mesh_size w = 0%Qc)) as [Hm|Hm].
  { intros _. by rewrite Hm, truediv_None. }
  intros [?|Hc]; [done|].
  by rewrite truediv_Some, Hc, Qc_of_Z_0, truediv_None.
Qed.

Lemma descritize_returns (w : RectWall) :
  mesh_size w ≠ 0%Qc → num_cols_of w ≠ 0 →
  ∃ w', descritize w = Done w'.
Proof.
  unfold descritize, descritize_with, num_cols_of. intros Hm Hc.
  rewrite truediv_Some, truediv_int by done.
  destruct (control_points remove_dups (height w) (loads w)) as [|y0 iter_y]
    eqn:Hy.
  { by apply control_points_nonempty in Hy;
      [|apply set_enumeration_remove_dups]. }
  by apply lifts_returns.
Qed.

Lemma descritize_Done_inv w w' :
  descritize w = Done w' → mesh_size w ≠ 0%Qc ∧ num_cols_of w ≠ 0.
Proof.
  intros Hd. split; intros H;
    rewrite descritize_raises in Hd by auto; discriminate.
Qed.

(** ** Meshing is a function of the geometry and of the bands *)

Lemma control_points_set_order f g h ls :
  set_enumeration f → set_enumeration g →
  control_points f h ls = control_points g h ls.
Proof.
  intros Hf Hg. induction ls as [|l ls IH] using rev_ind; [done|].
  rewrite !control_points_snoc, IH.
  set (y := control_points g h ls ++ [load_0 l; load_1 l]).
  apply (Sorted_unique Qcle).
  - apply (Sorted_merge_sort Qcle).
  - apply (Sorted_merge_sort Qcle).
  - rewrite !merge_sort_Permutation.
    apply NoDup_Permutation; [apply Hf|apply Hg|].
    intros x. by rewrite (proj2 (Hf y)), (proj2 (Hg y)).
Qed.

Lemma foldl_sim {A} (f1 f2 : mesh_state → A → mesh_state) (l : list A) :
  (∀ a st1 st2, mesh_sim st1 st2 → mesh_sim (f1 st1 a) (f2 st2 a)) →
  ∀ st1 st2, mesh_sim st1 st2 → mesh_sim (foldl f1 st1 l) (foldl f2 st2 l).
Proof. intros Hf. induction l as [|a l IH]; simpl; auto. Qed.

Lemma emit_node_sim st1 st2 x y :
  mesh_sim st1 st2 → mesh_sim (emit_node st1 x y) (emit_node st2 x y).
Proof.
  intros (Hn & Hq & Hp & Hi & Hy). unfold mesh_sim; simpl.
  rewrite Hn, Hi. auto.
Qed.

Lemma emit_quad_sim w1 w2 num_cols st1 st2 :
  mesh_sim st1 st2 →
  mesh_sim (emit_quad w1 num_cols st1) (emit_quad w2 num_cols st2).
Proof.
  intros (Hn & Hq & Hp & Hi & Hy). unfold mesh_sim; simpl.
  rewrite !fmap_app, Hq, Hp. auto.
Qed.

Lemma lift_sim w1 w2 pl_width num_cols st1 st2 control_point :
  mesh_size w1 = mesh_size w2 → mesh_sim st1 st2 →
  match lift w1 pl_width num_cols st1 control_point,
        lift w2 pl_width num_cols st2 control_point with
  | inr st1', inr st2' => mesh_sim st1' st2'
  | inl ZeroDivisionError, inl ZeroDivisionError => True
  | _, _ => False
  end.
Proof.
  intros Hm Hsim. unfold lift.
  rewrite <- Hm, <- (proj2 (proj2 (proj2 (proj2 Hsim)))).
  destruct (truediv _ (mesh_size w1)) as [e|q] eqn:Hdiv.
  { unfold truediv in Hdiv. by case_decide; simplify_eq. }
  clear Hdiv.
  destruct (truediv _ (Qc_of_Z _)) as [e|pl_height] eqn:Hdiv.
  { unfold truediv in Hdiv. by case_decide; simplify_eq. }
  set (st1' := lift_quads w1 _ _ _). set (st2' := lift_quads w2 _ _ _).
  assert (Hsim' : mesh_sim st1' st2').
  { apply foldl_sim; [intros; apply foldl_sim; [|done]
                     |apply foldl_sim; [|done]].
    - intros. by apply emit_quad_sim.
    - intros. apply foldl_sim; [|done].
      intros i s1 s2 Hs. case_decide; [|done].
      rewrite (proj2 (proj2 (proj2 (proj2 Hs)))). by apply emit_node_sim. }
  destruct Hsim' as (? & ? & ? & ? & ?). by repeat split.
Qed.

Lemma lifts_sim w1 w2 pl_width num_cols iter_y st1 st2 :
  mesh_size w1 = mesh_size w2 → mesh_sim st1 st2 →
  same_mesh (lifts w1 pl_width num_cols iter_y st1)
            (lifts w2 pl_width num_cols iter_y st2).
Proof.
  intros Hm. revert st1 st2.
  induction iter_y as [|control_point iter_y IH]; intros st1 st2 Hsim; simpl.
  - by destruct Hsim as (? & ? & _).
  - pose proof (lift_sim w1 w2 pl_width num_cols st1 st2 control_point
                  Hm Hsim) as Hl.
    destruct (lift w1 _ _ _ _) as [[]|st1'], (lift w2 _ _ _ _) as [[]|st2'];
      try done; simpl.
    + by destruct Hsim as (? & ? & _).
    + by apply IH.
Qed.

(** C10: the mesh is determined by width, height, mesh size and bands. Two
    walls that agree on these and whose models are new get the same nodes
    (keys, positions) and elements with the same keys and corners, whichever
    orders [list(set(y))] enumerates the control points in, and meshing
    fails on both or on none. *)
Theorem descritize_deterministic (f g : list Qc → list Qc)
    (w1 w2 : RectWall) :
  set_enumeration f → set_enumeration g →
  width w1 = width w2 → height w1 = height w2 →
  mesh_size w1 = mesh_size w2 → loads w1 = loads w2 →
  fem w1 = FEModel3D_new → fem w2 = FEModel3D_new →
  same_mesh (descritize_with f w1) (descritize_with g w2).
Proof.
  intros Hf Hg Hw Hh Hm Hl Hf1 Hf2. unfold descritize_with.
  rewrite <- Hw, <- Hh, <- Hm, <- Hl, (control_points_set_order f g) by done.
  destruct (truediv (width w1) (mesh_size w1)) as [e|q] eqn:Hq.
  { unfold truediv in Hq. case_decide; simplify_eq. simpl.
    by rewrite Hf1, Hf2. }
  destruct (truediv (width w1) (Qc_of_Z _)) as [e|pl_width] eqn:Hp.
  { unfold truediv in Hp. case_decide; simplify_eq. simpl.
    by rewrite Hf1, Hf2. }
  destruct (control_points g (height w1) (loads w1)) as [|y0 iter_y] eqn:Hy.
  { by apply control_points_nonempty in Hy. }
  apply lifts_sim; [done|].
  apply foldl_sim; [intros; by apply emit_node_sim|].
  unfold mesh_sim; simpl. by rewrite Hf1, Hf2.
Qed.

Lemma set_enumeration_reverse :
  set_enumeration (λ l, reverse (remove_dups l)).
Proof.
  intros l. split.
  - rewrite reverse_Permutation. apply NoDup_remove_dups.
  - intros x. by rewrite reverse_Permutation, elem_of_remove_dups.
Qed.

Lemma descritize_deterministic_witness :
  same_mesh
    (descritize_with (λ l, reverse (remove_dups l)) wall_band_inside)
    (descritize_with remove_dups wall_band_inside).
Proof.
  apply descritize_deterministic;
    [apply set_enumeration_reverse | apply set_enumeration_remove_dups
    | reflexivity ..].
Defined.

(** ** The flag [__analyzed] *)







(** ** The loops of meshing in closed form *)

Lemma mesh_state_eq st1 st2 :
  Nodes (st_fem st1) = Nodes (st_fem st2) →
  Quads (st_fem st1) = Quads (st_fem st2) →
  pl_id st1 = pl_id st2 → node_id st1 = node_id st2 →
  y_prev st1 = y_prev st2 → st1 = st2.
Proof.
  destruct st1 as [[] ? ? ?], st2 as [[] ? ? ?]; simpl.
  by intros -> -> -> -> ->.
Qed.

Lemma add_nodes_nil st : add_nodes st [] = st.
Proof. apply mesh_state_eq; simpl; rewrite ?app_nil_r; auto with lia. Qed.

Lemma add_nodes_app st ns1 ns2 :
  add_nodes (add_nodes st ns1) ns2 = add_nodes st (ns1 ++ ns2).
Proof.
  apply mesh_state_eq; simpl; rewrite ?app_assoc, ?length_app; auto with lia.
Qed.

Lemma add_quads_nil st : add_quads st [] = st.
Proof. apply mesh_state_eq; simpl; rewrite ?app_nil_r; auto with lia. Qed.

Lemma add_quads_app st qs1 qs2 :
  add_quads (add_quads st qs1) qs2 = add_quads st (qs1 ++ qs2).
Proof.
  apply mesh_state_eq; simpl; rewrite ?app_assoc, ?length_app; auto with lia.
Qed.

Lemma emit_node_add_nodes st x y :
  emit_node st x y
  = add_nodes st [Node3D_new ("N" +:+ str (node_id st)) x y 0%Qc].
Proof. by apply mesh_state_eq. Qed.

(** A row of nodes: [for i in range(num_cols + 1)]. *)
Lemma foldl_emit_row (pl_width : Qc) (y : mesh_state → Qc) (n : nat) :
  (∀ st ns, y (add_nodes st ns) = y st) →
  ∀ st,
  foldl (λ st i, emit_node st (Qc_of_Z i * pl_width)%Qc (y st)) st
        (seqZ 0 (Z.of_nat n))
  = add_nodes st (node_row pl_width (Z.of_nat n - 1) (node_id st) (y st)).
Proof.
  intros Hy st. unfold node_row.
  replace (Z.of_nat n - 1 + 1) with (Z.of_nat n) by lia.
  induction n as [|n IH].
  - by rewrite add_nodes_nil.
  - rewrite seqZ_S, foldl_snoc, IH, fmap_app, <- add_nodes_app.
    rewrite emit_node_add_nodes, Hy. simpl.
    by rewrite length_fmap, length_seqZ, Nat2Z.id.
Qed.

Lemma length_node_row pl_width num_cols first_id y :
  length (node_row pl_width num_cols first_id y) = Z.to_nat (num_cols + 1).
Proof. unfold node_row. by rewrite length_fmap, length_seqZ. Qed.

Lemma bottom_row_closed pl_width num_cols st :
  0 ≤ num_cols →
  bottom_row pl_width num_cols st
  = add_nodes st (node_row pl_width num_cols (node_id st) 0%Qc).
Proof.
  intros Hc. unfold bottom_row.
  pose proof (foldl_emit_row pl_width (λ _, 0%Qc) (Z.to_nat (num_cols + 1))
                (λ _ _, eq_refl) st) as H.
  rewrite Z2Nat.id in H by lia.
  by replace (num_cols + 1 - 1) with num_cols in H by lia.
Qed.

Lemma foldl_same {A B} (f g : A → B → A) (l : list B) (a : A) :
  (∀ a b, b ∈ l → f a b = g a b) → foldl f a l = foldl g a l.
Proof.
  revert a. induction l as [|b l IH]; intros a Hfg; [done|]. simpl.
  rewrite Hfg by apply list_elem_of_here.
  apply IH. intros ???. apply Hfg. by apply list_elem_of_further.
Qed.

Lemma foldl_skip {A B} (l : list B) (a : A) : foldl (λ a _, a) a l = a.
Proof. induction l; auto. Qed.

Lemma length_node_rows pl_width num_cols first_id ys :
  length (node_rows pl_width num_cols first_id ys)
  = (length ys * Z.to_nat (num_cols + 1))%nat.
Proof.
  revert first_id. induction ys as [|y ys IH]; intros first_id; [done|].
  simpl. by rewrite length_app, length_node_row, IH.
Qed.

Lemma node_rows_app pl_width num_cols first_id ys1 ys2 :
  0 ≤ num_cols + 1 →
  node_rows pl_width num_cols first_id (ys1 ++ ys2)
  = node_rows pl_width num_cols first_id ys1
    ++ node_rows pl_width num_cols
         (first_id + Z.of_nat (length ys1) * (num_cols + 1)) ys2.
Proof.
  intros Hc. revert first_id.
  induction ys1 as [|y ys1 IH]; intros first_id; simpl.
  - f_equal. lia.
  - rewrite IH, <- app_assoc. do 3 f_equal. lia.
Qed.

(** The rows of nodes of a lift. *)
Lemma lift_nodes_closed pl_width pl_height num_rows num_cols st :
  0 ≤ num_cols → 0 ≤ num_rows →
  lift_nodes pl_width pl_height num_rows num_cols st
  = add_nodes st
      (node_rows pl_width num_cols (node_id st)
         ((λ j, Qc_of_Z j * pl_height + y_prev st)%Qc <$> seqZ 1 num_rows)).
Proof.
  intros Hc Hr. unfold lift_nodes.
  rewrite (seqZ_cons 0 (num_rows + 1)) by lia. simpl.
  rewrite foldl_skip. change (Z.succ 0) with 1.
  replace (Z.pred (num_rows + 1)) with num_rows by lia.
  rewrite <- (Z2Nat.id num_rows) by done.
  induction (Z.to_nat num_rows) as [|n IH].
  - by rewrite add_nodes_nil.
  - rewrite seqZ_S, foldl_snoc, IH, fmap_app. clear IH.
    rewrite node_rows_app, <- add_nodes_app by lia. simpl.
    rewrite app_nil_r.
    rewrite (foldl_same _
      (λ st i, emit_node st (Qc_of_Z i * pl_width)%Qc
                 (Qc_of_Z (1 + Z.of_nat n) * pl_height + y_prev st)%Qc))
      by (intros; by rewrite decide_True by lia).
    pose proof (foldl_emit_row pl_width
      (λ st, (Qc_of_Z (1 + Z.of_nat n) * pl_height + y_prev st)%Qc)
      (Z.to_nat (num_cols + 1)) (λ _ _, eq_refl)) as H.
    rewrite Z2Nat.id in H by lia. rewrite H. clear H.
    replace (num_cols + 1 - 1) with num_cols by lia.
    do 2 f_equal. simpl.
    rewrite length_node_rows, length_fmap, length_seqZ. lia.
Qed.

(** ** The index formula *)

Lemma Qc_of_Z_div (a b : Z) :
  0 < b → (Qc_of_Z a / Qc_of_Z b)%Qc = Q2Qc (a # Z.to_pos b).
Proof.
  intros Hb. apply Qc_is_canon. simpl. rewrite !Qred_correct.
  destruct b as [|b|b]; try lia. simpl.
  unfold Qeq, Qmult, Qinv, inject_Z; simpl. lia.
Qed.

(** On non-negative integers [int(a/b)] is the quotient. *)
Lemma py_int_div (a b : Z) :
  0 ≤ a → 0 < b → py_int (Qc_of_Z a / Qc_of_Z b)%Qc = a `div` b.
Proof.
  intros Ha Hb. rewrite Qc_of_Z_div by done. unfold py_int.
  rewrite decide_True.
  - simpl. rewrite (Qfloor_comp _ _ (Qred_correct _)). simpl.
    by rewrite Z2Pos.id.
  - unfold Qcle. cbn [this Q2Qc]. rewrite !Qred_correct.
    unfold Qle; simpl. lia.
Qed.

Lemma emit_quad_closed w num_cols st :
  1 ≤ num_cols → 1 ≤ pl_id st →
  emit_quad w num_cols st = add_quads st [quad_of w num_cols (pl_id st)].
Proof.
  intros Hc Hp. unfold emit_quad, quad_of.
  rewrite py_int_div by lia.
  rewrite Z.max_r by (apply Z.div_pos; lia).
  by apply mesh_state_eq.
Qed.

Lemma foldl_emit_quad {A} w num_cols (l : list A) st :
  1 ≤ num_cols → 1 ≤ pl_id st →
  foldl (λ st _, emit_quad w num_cols st) st l
  = add_quads st (quad_run w num_cols (pl_id st) (Z.of_nat (length l))).
Proof.
  intros Hc Hp. unfold quad_run.
  induction l as [|a l IH] using rev_ind.
  - by rewrite add_quads_nil.
  - rewrite foldl_snoc, IH, length_app, Nat2Z.inj_add. simpl.
    rewrite seqZ_app, fmap_app, <- add_quads_app by lia.
    rewrite emit_quad_closed by (simpl; lia). simpl.
    by rewrite length_fmap, length_seqZ, Nat2Z.id.
Qed.

(** The elements of a lift. *)
Lemma lift_quads_closed w num_rows num_cols st :
  1 ≤ num_cols → 0 ≤ num_rows → 1 ≤ pl_id st →
  lift_quads w num_rows num_cols st
  = add_quads st (quad_run w num_cols (pl_id st) (num_rows * num_cols)).
Proof.
  intros Hc Hr Hp. unfold lift_quads.
  rewrite <- (Z2Nat.id num_rows) by done.
  induction (Z.to_nat num_rows) as [|n IH].
  - by rewrite add_quads_nil.
  - rewrite seqZ_S, foldl_snoc, IH. clear IH.
    rewrite foldl_emit_quad by (simpl; lia).
    rewrite add_quads_app. f_equal. unfold quad_run. simpl.
    rewrite length_fmap, !length_seqZ, !Z2Nat.id by lia.
    rewrite <- fmap_app, <- seqZ_app by lia.
    do 2 f_equal. lia.
Qed.

(** ** Meshing in closed form *)

Lemma lift_num_rows_pos mesh_size y_prev control_point :
  1 ≤ lift_num_rows mesh_size y_prev control_point.
Proof. unfold lift_num_rows. lia. Qed.

Lemma length_lift_rows mesh_size y_prev control_point :
  length (lift_rows mesh_size y_prev control_point)
  = Z.to_nat (lift_num_rows mesh_size y_prev control_point).
Proof. unfold lift_rows. by rewrite length_fmap, length_seqZ. Qed.

Lemma lift_closed w pl_width num_cols st control_point :
  mesh_size w ≠ 0%Qc → 1 ≤ num_cols → 1 ≤ pl_id st →
  lift w pl_width num_cols st control_point
  = inr (set_y_prev
           (add_quads
              (add_nodes st
                 (node_rows pl_width num_cols (node_id st)
                    (lift_rows (mesh_size w) (y_prev st) control_point)))
              (quad_run w num_cols (pl_id st)
                 (lift_num_rows (mesh_size w) (y_prev st) control_point
                  * num_cols)))
           control_point).
Proof.
  intros Hm Hc Hp. unfold lift, lift_rows.
  pose proof (lift_num_rows_pos (mesh_size w) (y_prev st) control_point).
  unfold lift_num_rows in *.
  rewrite truediv_Some by done. cbv zeta.
  rewrite truediv_int by lia.
  rewrite lift_nodes_closed, lift_quads_closed
    by (cbn [pl_id add_nodes]; lia).
  reflexivity.
Qed.

Lemma lifts_closed w pl_width num_cols iter_y st :
  mesh_size w ≠ 0%Qc → 1 ≤ num_cols → 1 ≤ pl_id st →
  lifts w pl_width num_cols iter_y st
  = Done (set_fem w
      {| Nodes := Nodes (st_fem st)
                  ++ node_rows pl_width num_cols (node_id st)
                       (rows_above (mesh_size w) (y_prev st) iter_y);
         Quads := Quads (st_fem st)
                  ++ quad_run w num_cols (pl_id st)
                       (Z.of_nat (length
                          (rows_above (mesh_size w) (y_prev st) iter_y))
                        * num_cols) |}).
Proof.
  intros Hm Hc. revert st.
  induction iter_y as [|control_point iter_y IH]; intros st Hp;
    cbn [lifts rows_above].
  - unfold quad_run. rewrite seqZ_nil by (cbn [length]; lia).
    cbn [node_rows fmap list_fmap]. rewrite !app_nil_r.
    by destruct (st_fem st).
  - rewrite lift_closed by done.
    pose proof (lift_num_rows_pos (mesh_size w) (y_prev st) control_point).
    rewrite IH by (cbn [pl_id set_y_prev add_quads add_nodes]; lia).
    cbn [set_y_prev add_quads add_nodes st_fem Nodes Quads pl_id node_id
         y_prev].
    do 3 f_equal.
    + rewrite <- app_assoc. f_equal.
      rewrite node_rows_app by lia. do 2 f_equal.
      rewrite length_node_rows, length_lift_rows. lia.
    + rewrite <- app_assoc. f_equal. unfold quad_run.
      rewrite length_fmap, length_seqZ, length_app, length_lift_rows.
      rewrite <- fmap_app. f_equal.
      rewrite Nat2Z.inj_add, Z.mul_add_distr_r, seqZ_app by lia.
      do 3 f_equal; lia.
Qed.

(** On a mesh size other than 0 and at least one column, meshing returns,
    with the rows of nodes at [row_ordinates] and a run of elements added
    to the model. *)
Lemma descritize_closed w :
  mesh_size w ≠ 0%Qc → 1 ≤ num_cols_of w →
  descritize w
  = Done (set_fem w
      {| Nodes := Nodes (fem w)
                  ++ node_rows (pl_width_of w) (num_cols_of w) 1
                       (row_ordinates w);
         Quads := Quads (fem w)
                  ++ quad_run w (num_cols_of w) 1
                       ((Z.of_nat (length (row_ordinates w)) - 1)
                        * num_cols_of w) |}).
Proof.
  intros Hm Hc. unfold descritize, descritize_with.
  rewrite truediv_Some by done. fold (num_cols_of w).
  rewrite truediv_int by lia. fold (pl_width_of w).
  unfold row_ordinates.
  destruct (control_points remove_dups (height w) (loads w)) as [|y0 iter_y]
    eqn:Hy.
  { by apply control_points_nonempty in Hy;
      [|apply set_enumeration_remove_dups]. }
  rewrite bottom_row_closed by lia.
  rewrite lifts_closed by (try done; cbn [pl_id add_nodes]; lia).
  cbn [add_nodes st_fem Nodes Quads pl_id node_id y_prev tail node_rows
       length].
  rewrite <- app_assoc. do 4 f_equal.
  - do 2 f_equal. rewrite length_node_row. lia.
  - f_equal. lia.
Qed.

(** ** Looking nodes and elements up in the grid *)

Lemma node_row_lookup pl_width num_cols first_id y (c : nat) :
  Z.of_nat c ≤ num_cols →
  node_row pl_width num_cols first_id y !! c
  = Some (Node3D_new ("N" +:+ str (first_id + Z.of_nat c))
            (Qc_of_Z (Z.of_nat c) * pl_width)%Qc y 0%Qc).
Proof.
  intros Hc. unfold node_row.
  by rewrite list_lookup_fmap, lookup_seqZ_lt by lia.
Qed.

Lemma node_rows_lookup pl_width num_cols first_id ys (r c : nat) y :
  0 ≤ num_cols → ys !! r = Some y → Z.of_nat c ≤ num_cols →
  node_rows pl_width num_cols first_id ys
    !! (r * Z.to_nat (num_cols + 1) + c)%nat
  = Some (Node3D_new
            ("N" +:+ str (first_id
                          + Z.of_nat (r * Z.to_nat (num_cols + 1) + c)))
            (Qc_of_Z (Z.of_nat c) * pl_width)%Qc y 0%Qc).
Proof.
  intros Hn. revert first_id r.
  induction ys as [|y0 ys IH]; intros first_id r Hr Hc; [done|].
  cbn [node_rows]. destruct r as [|r].
  - simplify_eq/=. rewrite lookup_app_l by (rewrite length_node_row; lia).
    by apply node_row_lookup.
  - rewrite lookup_app_r by (rewrite length_node_row; lia).
    rewrite length_node_row.
    replace (S r * Z.to_nat (num_cols + 1) + c - Z.to_nat (num_cols + 1))%nat
      with (r * Z.to_nat (num_cols + 1) + c)%nat by lia.
    rewrite (IH _ r) by done. do 4 f_equal. lia.
Qed.

(** Node keys follow the order in which the nodes were created. *)
Lemma node_rows_name pl_width num_cols first_id ys (k : nat) node :
  0 ≤ num_cols →
  node_rows pl_width num_cols first_id ys !! k = Some node →
  Name node = "N" +:+ str (first_id + Z.of_nat k).
Proof.
  intros Hn. revert first_id k.
  induction ys as [|y0 ys IH]; intros first_id k Hk; [done|].
  cbn [node_rows] in Hk.
  destruct (decide (k < Z.to_nat (num_cols + 1))%nat) as [Hlt|Hge].
  - rewrite lookup_app_l in Hk by (rewrite length_node_row; lia).
    rewrite node_row_lookup in Hk by lia. by simplify_eq.
  - rewrite lookup_app_r in Hk by (rewrite length_node_row; lia).
    rewrite length_node_row in Hk. apply IH in Hk. rewrite Hk.
    do 2 f_equal. lia.
Qed.

Lemma node_key_inj (a b : Z) : "N" +:+ str a = "N" +:+ str b → a = b.
Proof. intros H. simpl in H. injection H as H. by apply (inj pretty). Qed.

(** A key resolves to the node that was created with it. *)
Lemma GetNode_node_rows m pl_width num_cols first_id ys (k : nat) node :
  0 ≤ num_cols →
  Nodes m = node_rows pl_width num_cols first_id ys →
  Nodes m !! k = Some node →
  GetNode m ("N" +:+ str (first_id + Z.of_nat k)) = Some node.
Proof.
  intros Hn Hm Hk. unfold GetNode.
  assert (Hfind : list_find
            (λ n, Name n = "N" +:+ str (first_id + Z.of_nat k)) (Nodes m)
          = Some (k, node)); [|by rewrite Hfind].
  apply list_find_Some. split; [done|]. rewrite Hm in *. split.
  - by eapply node_rows_name.
  - intros j node' Hj Hlt Hname.
    erewrite node_rows_name in Hname by done.
    apply node_key_inj in Hname. lia.
Qed.

(** ** The corners of the elements *)

(** The mesh of a wall whose model was new. *)
Lemma descritize_fresh w w' :
  fem w = FEModel3D_new → descritize w = Done w' → 1 ≤ num_cols_of w →
  Nodes (fem w')
  = node_rows (pl_width_of w) (num_cols_of w) 1 (row_ordinates w)
  ∧ Quads (fem w')
    = quad_run w (num_cols_of w) 1
        ((Z.of_nat (length (row_ordinates w)) - 1) * num_cols_of w).
Proof.
  intros Hnew Hd Hn.
  destruct (descritize_Done_inv w w' Hd) as [Hm _].
  rewrite descritize_closed in Hd by done. injection Hd as <-.
  rewrite Hnew. split; apply app_nil_l.
Qed.

(** After meshing a wall whose model was new, the node of row [r] and
    column [c] is found under the key of its row-major number. *)
Lemma descritize_node_at w w' (r c : nat) y :
  fem w = FEModel3D_new → descritize w = Done w' →
  1 ≤ num_cols_of w →
  row_ordinates w !! r = Some y → Z.of_nat c ≤ num_cols_of w →
  ∃ node,
    GetNode (fem w')
      ("N" +:+ str (Z.of_nat r * (num_cols_of w + 1) + Z.of_nat c + 1))
    = Some node
    ∧ X node = (Qc_of_Z (Z.of_nat c) * pl_width_of w)%Qc ∧ Y node = y.
Proof.
  intros Hnew Hd Hn Hr Hc.
  destruct (descritize_fresh w w' Hnew Hd Hn) as [HN _].
  replace (Z.of_nat r * (num_cols_of w + 1) + Z.of_nat c + 1)
    with (1 + Z.of_nat (r * Z.to_nat (num_cols_of w + 1) + c)) by lia.
  eexists (Node3D_new _ _ _ _). split; [|split; reflexivity].
  eapply GetNode_node_rows; [|exact HN|]; [lia|].
  rewrite HN, (node_rows_lookup _ _ _ _ r c y) by (done || lia).
  reflexivity.
Qed.

Lemma descritize_quad_at w w' (k : nat) :
  fem w = FEModel3D_new → descritize w = Done w' →
  1 ≤ num_cols_of w →
  Z.of_nat k < (Z.of_nat (length (row_ordinates w)) - 1) * num_cols_of w →
  Quads (fem w') !! k = Some (quad_of w (num_cols_of w) (Z.of_nat k + 1)).
Proof.
  intros Hnew Hd Hn Hk.
  destruct (descritize_fresh w w' Hnew Hd Hn) as [_ ->].
  unfold quad_run. rewrite list_lookup_fmap, lookup_seqZ_lt by done.
  simpl. do 2 f_equal. lia.
Qed.

Lemma descritize_lengths w w' :
  fem w = FEModel3D_new → descritize w = Done w' →
  1 ≤ num_cols_of w →
  length (Nodes (fem w'))
  = (length (row_ordinates w) * Z.to_nat (num_cols_of w + 1))%nat
  ∧ length (Quads (fem w'))
    = ((length (row_ordinates w) - 1) * Z.to_nat (num_cols_of w))%nat.
Proof.
  intros Hnew Hd Hn.
  destruct (descritize_fresh w w' Hnew Hd Hn) as [-> ->].
  split; [apply length_node_rows|].
  unfold quad_run. rewrite length_fmap, length_seqZ.
  assert (1 ≤ length (row_ordinates w))%nat by (simpl; lia).
  rewrite Z2Nat.inj_mul by lia. f_equal. lia.
Qed.

Lemma py_round_nonpos (x : Qc) : (x ≤ 0)%Qc → py_round x ≤ 0.
Proof.
  intros Hx. unfold py_round.
  assert (Hf : Qfloor x ≤ 0).
  { change 0 with (Qfloor 0%Q). by apply Qfloor_resp_le. }
  destruct (decide (Qfloor x = 0)) as [H0|H0].
  - assert (E : x = 0%Qc).
    { apply Qcle_antisym; [done|].
      pose proof (Qfloor_le x) as Hle. rewrite H0 in Hle. exact Hle. }
    rewrite E. by_compute.
  - repeat case_decide; try destruct (Z.even _); lia.
Qed.

(** C4, as the code has it: meshing validates nothing. A mesh size of 0
    makes it fail, by the [ZeroDivisionError] of its first division, before
    any node is created: the wall, its model included, is as before the
    call. A height that is not positive is not rejected: without bands, for
    a positive mesh size, at least one column and quotients within the
    range of floats, the call returns, and the model, if it was new, holds
    one row of elements between two rows of nodes. *)
Theorem descritize_validates_nothing (w : RectWall) :
  (mesh_size w = 0%Qc → descritize w = Raised ZeroDivisionError w)
  ∧ (fem w = FEModel3D_new → loads w = [] →
     (0 < mesh_size w)%Qc → (height w ≤ 0)%Qc → 1 ≤ num_cols_of w →
     float_range (width w / mesh_size w) →
     float_range (height w / mesh_size w) →
     ∃ w', descritize w = Done w'
           ∧ Z.of_nat (length (Nodes (fem w'))) = 2 * (num_cols_of w + 1)
           ∧ Z.of_nat (length (Quads (fem w'))) = num_cols_of w).
Proof.
  split; [intros Hm; apply descritize_raises; by left|].
  intros Hnew Hl Hm Hh Hn _ _.
  assert (Hm0 : mesh_size w ≠ 0%Qc).
  { intros E. rewrite E in Hm. by apply (Qclt_not_le _ _ Hm), Qcle_refl. }
  destruct (descritize_returns w Hm0) as [w' Hd]; [lia|].
  exists w'. split; [done|].
  destruct (descritize_lengths w w' Hnew Hd Hn) as [-> ->].
  assert (Hq : (height w / mesh_size w ≤ 0)%Qc).
  { unfold Qcdiv. rewrite <- (Qcmult_0_l (/ mesh_size w)).
    apply Qcmult_le_compat_r; [done|].
    by apply Qclt_le_weak, Qcinv_pos. }
  assert (Hlen : length (row_ordinates w) = 2%nat).
  { unfold row_ordinates. rewrite Hl.
    cbn [control_points foldl tail rows_above length].
    rewrite app_nil_r, length_lift_rows. unfold lift_num_rows.
    replace (height w - 0)%Qc with (height w) by ring.
    pose proof (py_round_nonpos _ Hq). f_equal. lia. }
  rewrite Hlen. split; lia.
Qed.

Lemma descritize_validates_nothing_witness :
  ∃ w', descritize wall_flat = Done w'
        ∧ Z.of_nat (length (Nodes (fem w'))) = 2 * (num_cols_of wall_flat + 1)
        ∧ Z.of_nat (length (Quads (fem w'))) = num_cols_of wall_flat.
Proof.
  apply (proj2 (descritize_validates_nothing wall_flat)).
  - reflexivity.
  - reflexivity.
  - by_compute.
  - by_compute.
  - by_compute.
  - by_compute.
  - by_compute.
Defined.

(** X9: without bands, and when the number of columns is at least 1, the
    mesh of a wall whose model was new has [(cols+1)*(rows+1)] nodes and
    [cols*rows] elements, where [cols = round(width/mesh_size)] and
    [rows = max(1, round(height/mesh_size))]. *)
Lemma descritize_counts_no_bands w w' :
  fem w = FEModel3D_new → loads w = [] → descritize w = Done w' →
  1 ≤ num_cols_of w →
  let cols := num_cols_of w in
  let rows := Z.max 1 (py_round (height w / mesh_size w)%Qc) in
  Z.of_nat (length (Nodes (fem w'))) = (cols + 1) * (rows + 1)
  ∧ Z.of_nat (length (Quads (fem w'))) = cols * rows.
Proof.
  intros Hnew Hl Hd Hn.
  destruct (descritize_lengths w w' Hnew Hd Hn) as [-> ->].
  assert (Hlen : length (row_ordinates w)
                 = S (Z.to_nat (Z.max 1
                        (py_round (height w / mesh_size w)%Qc)))).
  { unfold row_ordinates. rewrite Hl.
    cbn [control_points foldl tail rows_above length].
    rewrite app_nil_r, length_lift_rows. unfold lift_num_rows.
    replace (height w - 0)%Qc with (height w) by ring. done. }
  rewrite Hlen. cbv zeta. split; nia.
Qed.

(** C8: in the mesh of a wall whose model was new, the element created for
    the grid row [r] and the column [c] is the one number
    [pl_id = r*num_cols + c + 1] in the order of creation, it has the key
    ["P" + str(pl_id)], its corners i, j, m, n are the nodes that the index
    formula names, and these are the nodes at the bottom left, bottom right,
    top right and top left of the cell: at [c*pl_width] or
    [(c+1)*pl_width], on the row ordinates number [r] or [r+1]. *)
Theorem quads_are_unit_cells (w w' : RectWall) (r c : nat) :
  fem w = FEModel3D_new → descritize w = Done w' →
  (S r < length (row_ordinates w))%nat → Z.of_nat c < num_cols_of w →
  unit_cell w w' r c.
Proof.
  intros Hnew Hd Hr Hc. unfold unit_cell.
  assert (Hn : 1 ≤ num_cols_of w) by lia.
  set (num_cols := num_cols_of w) in *.
  set (pl_id := Z.of_nat r * num_cols + Z.of_nat c + 1).
  assert (Hdiv : (pl_id - 1) `div` num_cols = Z.of_nat r).
  { symmetry. apply (Z.div_unique_pos _ _ _ (Z.of_nat c)); lia. }
  rewrite Hdiv.
  destruct (lookup_lt_is_Some_2 (row_ordinates w) r) as [y_r Hy]; [lia|].
  destruct (lookup_lt_is_Some_2 (row_ordinates w) (S r)) as [y_r1 Hy1];
    [lia|].
  destruct (descritize_node_at w w' r c y_r) as (i_node & Hi & Hix & Hiy);
    [done || lia ..|].
  destruct (descritize_node_at w w' r (S c) y_r)
    as (j_node & Hj & Hjx & Hjy); [done || lia ..|].
  destruct (descritize_node_at w w' (S r) (S c) y_r1)
    as (m_node & Hm & Hmx & Hmy); [done || lia ..|].
  destruct (descritize_node_at w w' (S r) c y_r1)
    as (n_node & Hnn & Hnx & Hny); [done || lia ..|].
  fold num_cols in Hi, Hj, Hm, Hnn.
  rewrite Nat2Z.inj_succ in Hjx, Hmx. unfold Z.succ in Hjx, Hmx.
  exists (quad_of w num_cols pl_id), y_r, y_r1, i_node, j_node, m_node, n_node.
  split.
  { rewrite (descritize_quad_at w w') by (done || nia).
    do 2 f_equal. lia. }
  unfold quad_of at 1 2 3 4 5 6 7 8 9. cbn [qName iNode jNode mNode nNode].
  rewrite Hdiv.
  repeat split; try done.
  - rewrite <- Hi. do 3 f_equal. lia.
  - rewrite <- Hj. do 3 f_equal. lia.
  - rewrite <- Hm. do 3 f_equal. lia.
  - rewrite <- Hnn. do 3 f_equal. lia.
Qed.

Lemma quads_are_unit_cells_witness :
  unit_cell wall_band_inside (outcome_state (descritize wall_band_inside))
    1 1.
Proof.
  apply quads_are_unit_cells.
  - reflexivity.
  - by_compute.
  - by_compute.
  - by_compute.
Defined.

(** ** The rows of a lift lie between its control points *)





(** ** Sorted control points, and a band that starts below the bottom *)


(** C7, at a failing input: the band of [wall_band_below] starts at -5,
    below the bottom of the wall. The control points are -5, 0, 10 and 20;
    meshing skips the first of them as if it were the bottom of the wall
    and starts at 0. It returns, and no node of the mesh is at the
    ordinate -5, an end of the band. *)
Lemma band_end_below_bottom_is_skipped :
  band_end wall_band_below (qz (-5))
  ∧ ∃ w', descritize wall_band_below = Done w'
          ∧ ¬ is_row_boundary (fem w') (qz (-5)).
Proof.
  split.
  - exists (qz (-5), qz 10, qz 1, qz 1).
    split; [apply list_elem_of_here|by left].
  - exists (outcome_state (descritize wall_band_below)).
    split; [by_compute|].
    intros (node & Hin & HY).
    assert (H : Forall (λ node, Y node ≠ qz (-5))
                  (Nodes (fem (outcome_state (descritize wall_band_below)))))
      by by_compute.
    rewrite Forall_forall in H. by apply (H node Hin).
Qed.

(** * Further properties *)

(** ** Sections *)

(** X2: the default gradient fails exactly when one of its six evaluations
    of [Phi] fails, and then with the exception of the first one that
    does: the divisions by [2*epsilon] never fail. On an instance of the
    base class that is the first evaluation: [self.Phi(fx + epsilon, my,
    mz)] hands three arguments to [Section.Phi], which takes none, and
    raises a [TypeError]. *)
Theorem Section_G_raises_iff (Phi : R → R → R → exn + R)
    (self : Steel.instance) (fx my mz : R) (e : exn) :
  let eps := Steel.epsilon in
  let calls :=
    [ Phi (fx + eps)%R my mz; Phi (fx - eps)%R my mz;
      Phi fx (my + eps)%R mz; Phi fx (my - eps)%R mz;
      Phi fx my (mz + eps)%R; Phi fx my (mz - eps)%R ] in
  (Steel.Section_G Phi fx my mz = inl e
   ↔ ∃ i : nat,
       calls !! i = Some (inl e)
       ∧ ∀ j : nat, (j < i)%nat → ∃ v, calls !! j = Some (inr v))
  ∧ Steel.Section_G (Steel.Section_Phi_call self) fx my mz = inl TypeError.
Proof.
  intros eps calls. split; [|reflexivity].
  assert (He : (2 * Steel.epsilon)%R ≠ 0%R)
    by (unfold Steel.epsilon; lra).
  unfold Steel.Section_G. subst calls eps.
  generalize (Phi (fx + Steel.epsilon)%R my mz)
             (Phi (fx - Steel.epsilon)%R my mz)
             (Phi fx (my + Steel.epsilon)%R mz)
             (Phi fx (my - Steel.epsilon)%R mz)
             (Phi fx my (mz + Steel.epsilon)%R)
             (Phi fx my (mz - Steel.epsilon)%R).
  intros c1 c2 c3 c4 c5 c6.
  destruct c1 as [e1|a1]; cbn [Steel.bind].
  { split.
    - intros [= <-]. exists 0%nat. split; [done|]. intros j Hj. lia.
    - intros ([|i] & Hi & Hb); [by injection Hi as <-|].
      destruct (Hb 0%nat) as [v [=]]. lia. }
  destruct c2 as [e2|a2]; cbn [Steel.bind].
  { split.
    - intros [= <-]. exists 1%nat. split; [done|].
      intros [|j] Hj; [by eexists|lia].
    - intros ([|[|i]] & Hi & Hb); [done|by injection Hi as <-|].
      destruct (Hb 1%nat) as [v [=]]. lia. }
  rewrite truediv_ok by exact He. cbn [Steel.bind].
  destruct c3 as [e3|a3]; cbn [Steel.bind].
  { split.
    - intros [= <-]. exists 2%nat. split; [done|].
      intros [|[|j]] Hj; [by eexists..|lia].
    - intros ([|[|[|i]]] & Hi & Hb); [done..|by injection Hi as <-|].
      destruct (Hb 2%nat) as [v [=]]. lia. }
  destruct c4 as [e4|a4]; cbn [Steel.bind].
  { split.
    - intros [= <-]. exists 3%nat. split; [done|].
      intros [|[|[|j]]] Hj; [by eexists..|lia].
    - intros ([|[|[|[|i]]]] & Hi & Hb); [done..|by injection Hi as <-|].
      destruct (Hb 3%nat) as [v [=]]. lia. }
  rewrite truediv_ok by exact He. cbn [Steel.bind].
  destruct c5 as [e5|a5]; cbn [Steel.bind].
  { split.
    - intros [= <-]. exists 4%nat. split; [done|].
      intros [|[|[|[|j]]]] Hj; [by eexists..|lia].
    - intros ([|[|[|[|[|i]]]]] & Hi & Hb); [done..|by injection Hi as <-|].
      destruct (Hb 4%nat) as [v [=]]. lia. }
  destruct c6 as [e6|a6]; cbn [Steel.bind].
  { split.
    - intros [= <-]. exists 5%nat. split; [done|].
      intros [|[|[|[|[|j]]]]] Hj; [by eexists..|lia].
    - intros ([|[|[|[|[|[|i]]]]]] & Hi & Hb);
        [done..|by injection Hi as <-|done]. }
  rewrite truediv_ok by exact He. cbn [Steel.bind].
  split; [done|].
  intros ([|[|[|[|[|[|i]]]]]] & Hi & Hb); done.
Qed.

Section steel_capacity.
Local Open Scope R_scope.

Lemma unit_section_strengths :
  Steel.Py unit_section = 1 ∧ Steel.Mpy unit_section = 1
  ∧ Steel.Mpz unit_section = 1.
Proof. unfold Steel.Py, Steel.Mpy, Steel.Mpz. simpl. repeat split; lra. Qed.

(** X5: the yield surface is the same in tension and compression and for
    either sign of each moment: changing the sign of an argument changes
    neither the value of [Phi] nor whether it fails. *)
Theorem Phi_even (self : Steel.SteelSection) (fx my mz : R) :
  Steel.Phi self (- fx) my mz = Steel.Phi self fx my mz
  ∧ Steel.Phi self fx (- my) mz = Steel.Phi self fx my mz
  ∧ Steel.Phi self fx my (- mz) = Steel.Phi self fx my mz.
Proof.
  unfold Steel.Phi. fold (Steel.Py self) (Steel.Mpy self) (Steel.Mpz self).
  unfold Steel.truediv.
  destruct (Req_dec_T (Steel.Py self) 0), (Req_dec_T (Steel.Mpy self) 0),
    (Req_dec_T (Steel.Mpz self) 0); simpl; try done.
  repeat split; f_equal; decimal_field; done.
Qed.

(** X7: for positive plastic strengths, the first and the last entry of
    the closed-form gradient [G] are the partial derivatives of [Phi] in
    [fx] and in [mz]. *)
Theorem G_entries_fx_mz_are_partials (self : Steel.SteelSection)
    (fx my mz : R) :
  0 < Steel.Py self → 0 < Steel.Mpy self → 0 < Steel.Mpz self →
  ∃ (g1 g5 g6 : R) (Phi_fx Phi_mz : R → R),
    Steel.G self fx my mz = inr [g1; 0; 0; 0; g5; g6]
    ∧ (∀ x, Steel.Phi self x my mz = inr (Phi_fx x))
    ∧ derivable_pt_lim Phi_fx fx g1
    ∧ (∀ z, Steel.Phi self fx my z = inr (Phi_mz z))
    ∧ derivable_pt_lim Phi_mz mz g6.
Proof.
  intros HPy HMpy HMpz.
  exists (Steel.G_fx self fx my mz), (Steel.G_my self fx my mz),
    (Steel.G_mz self fx my mz), (λ x, Steel.Phi_value self x my mz),
    (λ z, Steel.Phi_value self fx my z).
  split; [by apply G_returns|].
  split; [intros; by apply Phi_returns|].
  split; [by apply G_fx_is_dPhi_dfx|].
  split; [intros; by apply Phi_returns|].
  by apply G_mz_is_dPhi_dmz.
Qed.

Lemma G_entries_fx_mz_are_partials_witness :
  ∃ (g1 g5 g6 : R) (Phi_fx Phi_mz : R → R),
    Steel.G unit_section 3 4 5 = inr [g1; 0; 0; 0; g5; g6]
    ∧ (∀ x, Steel.Phi unit_section x 4 5 = inr (Phi_fx x))
    ∧ derivable_pt_lim Phi_fx 3 g1
    ∧ (∀ z, Steel.Phi unit_section 3 4 z = inr (Phi_mz z))
    ∧ derivable_pt_lim Phi_mz 5 g6.
Proof.
  destruct unit_section_strengths as (H1 & H2 & H3).
  apply G_entries_fx_mz_are_partials; rewrite ?H1, ?H2, ?H3; lra.
Defined.

End steel_capacity.

(** ** The mesh *)

Lemma descritize_counts_no_bands_witness :
  Z.of_nat (length (Nodes (fem (outcome_state (descritize wall_10_10)))))
  = (num_cols_of wall_10_10 + 1)
    * (Z.max 1 (py_round (height wall_10_10 / mesh_size wall_10_10)%Qc) + 1)
  ∧ Z.of_nat (length (Quads (fem (outcome_state (descritize wall_10_10)))))
    = num_cols_of wall_10_10
      * Z.max 1 (py_round (height wall_10_10 / mesh_size wall_10_10)%Qc).
Proof.
  apply (descritize_counts_no_bands wall_10_10);
    [reflexivity | reflexivity | by_compute | by_compute].
Defined.

(** Every element of the mesh is that of some grid row and column. *)
Lemma elem_of_mesh_quads w w' quad :
  fem w = FEModel3D_new → descritize w = Done w' → 1 ≤ num_cols_of w →
  quad ∈ Quads (fem w') →
  ∃ r c : nat,
    (S r < length (row_ordinates w))%nat ∧ Z.of_nat c < num_cols_of w
    ∧ quad = quad_of w (num_cols_of w)
               (Z.of_nat r * num_cols_of w + Z.of_nat c + 1)
    ∧ (Z.of_nat r * num_cols_of w + Z.of_nat c + 1 - 1) `div` num_cols_of w
      = Z.of_nat r.
Proof.
  intros Hnew Hd Hn [k Hk]%list_elem_of_lookup_1.
  destruct (descritize_lengths w w' Hnew Hd Hn) as [_ Hlen].
  pose proof (lookup_lt_Some _ _ _ Hk) as Hklt. rewrite Hlen in Hklt.
  set (num_cols := num_cols_of w) in *.
  assert (Hk' : Z.of_nat k
                < (Z.of_nat (length (row_ordinates w)) - 1) * num_cols)
    by nia.
  rewrite (descritize_quad_at w w') in Hk by done. injection Hk as <-.
  pose proof (Z.div_mod (Z.of_nat k) num_cols ltac:(lia)) as Hdm.
  pose proof (Z.mod_pos_bound (Z.of_nat k) num_cols ltac:(lia)) as Hmod.
  assert (Hdiv : 0 ≤ Z.of_nat k `div` num_cols
                 < Z.of_nat (length (row_ordinates w)) - 1).
  { split; [apply Z.div_pos; lia|]. apply Z.div_lt_upper_bound; lia. }
  exists (Z.to_nat (Z.of_nat k `div` num_cols)),
    (Z.to_nat (Z.of_nat k `mod` num_cols)).
  split; [lia|]. split; [lia|].
  replace (Z.of_nat (Z.to_nat (Z.of_nat k `div` num_cols)) * num_cols
           + Z.of_nat (Z.to_nat (Z.of_nat k `mod` num_cols)) + 1)
    with (Z.of_nat k + 1) by lia.
  split; [done|]. fold num_cols.
  replace (Z.of_nat k + 1 - 1) with (Z.of_nat k) by lia. lia.
Qed.

(** X10: in the mesh of a wall whose model was new, no two nodes have the
    same key and no two elements have the same key. *)
Theorem mesh_keys_unique (w w' : RectWall) :
  fem w = FEModel3D_new → descritize w = Done w' → 1 ≤ num_cols_of w →
  NoDup (Name <$> Nodes (fem w')) ∧ NoDup (qName <$> Quads (fem w')).
Proof.
  intros Hnew Hd Hn.
  destruct (descritize_fresh w w' Hnew Hd Hn) as [HN HQ]. split.
  - apply NoDup_alt. intros i j key Hi Hj.
    rewrite list_lookup_fmap, HN in Hi, Hj.
    destruct (node_rows _ _ _ _ !! i) as [ni|] eqn:Ei; [|done].
    destruct (node_rows _ _ _ _ !! j) as [nj|] eqn:Ej; [|done].
    apply node_rows_name in Ei, Ej; [|lia..].
    simpl in Hi, Hj. injection Hi as Hi. injection Hj as Hj.
    rewrite Ei in Hi. rewrite Ej, <- Hi in Hj.
    apply node_key_inj in Hj. lia.
  - rewrite HQ. unfold quad_run. rewrite <- list_fmap_compose.
    apply NoDup_fmap_2; [|apply NoDup_seqZ].
    intros a b Hab. simpl in Hab. injection Hab as Hab.
    by apply (inj pretty).
Qed.

Lemma mesh_keys_unique_witness :
  NoDup (Name <$> Nodes (fem (outcome_state (descritize wall_band_inside))))
  ∧ NoDup (qName <$>
             Quads (fem (outcome_state (descritize wall_band_inside)))).
Proof.
  apply (mesh_keys_unique wall_band_inside);
    [reflexivity | by_compute | by_compute].
Defined.

(** X11: in the mesh of a wall whose model was new, the four corner keys of
    every element are pairwise different and each of them is the key of a
    node of the model. *)
Theorem quad_corners_resolve (w w' : RectWall) (quad : Quad3D) :
  fem w = FEModel3D_new → descritize w = Done w' → 1 ≤ num_cols_of w →
  quad ∈ Quads (fem w') →
  NoDup [iNode quad; jNode quad; mNode quad; nNode quad]
  ∧ ∀ key, key ∈ [iNode quad; jNode quad; mNode quad; nNode quad] →
           ∃ node, GetNode (fem w') key = Some node ∧ node ∈ Nodes (fem w')
                   ∧ Name node = key.
Proof.
  intros Hnew Hd Hn Hq.
  destruct (elem_of_mesh_quads w w' quad Hnew Hd Hn Hq)
    as (r & c & Hr & Hc & -> & Hdiv).
  set (num_cols := num_cols_of w) in *.
  unfold quad_of. cbn [iNode jNode mNode nNode]. rewrite Hdiv.
  set (ni := Z.of_nat r * num_cols + Z.of_nat c + 1 + Z.of_nat r).
  split.
  - repeat constructor;
      rewrite ?elem_of_cons, ?elem_of_nil;
      intros H; repeat destruct H as [H|H]; try done;
      apply node_key_inj in H; lia.
  - assert (Hres : ∀ (r' c' : nat),
              (r' < length (row_ordinates w))%nat → Z.of_nat c' ≤ num_cols →
              ∃ node,
                GetNode (fem w')
                  ("N" +:+ str (Z.of_nat r' * (num_cols + 1)
                                + Z.of_nat c' + 1)) = Some node
                ∧ node ∈ Nodes (fem w')
                ∧ Name node
                  = "N" +:+ str (Z.of_nat r' * (num_cols + 1)
                                 + Z.of_nat c' + 1)).
    { intros r' c' Hr' Hc'.
      destruct (lookup_lt_is_Some_2 (row_ordinates w) r') as [y Hy]; [lia|].
      destruct (descritize_node_at w w' r' c' y) as (node & Hg & _);
        [done..|].
      exists node. split; [done|]. unfold GetNode in Hg.
      destruct (list_find _ _) as [[i node']|] eqn:Hf; [|done].
      simpl in Hg. simplify_eq.
      apply list_find_Some in Hf as (Hi & Hname & _).
      split; [by eapply list_elem_of_lookup_2|done]. }
    intros key Hkey.
    rewrite !elem_of_cons, elem_of_nil in Hkey.
    destruct Hkey as [->|[->|[->|[->|[]]]]].
    + destruct (Hres r c) as (node & H1 & H2 & H3); [lia..|].
      replace ni with (Z.of_nat r * (num_cols + 1) + Z.of_nat c + 1)
        by (unfold ni; lia). eauto.
    + destruct (Hres r (S c)) as (node & H1 & H2 & H3); [lia..|].
      replace (ni + 1)
        with (Z.of_nat r * (num_cols + 1) + Z.of_nat (S c) + 1)
        by (unfold ni; lia). eauto.
    + destruct (Hres (S r) (S c)) as (node & H1 & H2 & H3); [lia..|].
      replace (ni + 1 + (num_cols + 1))
        with (Z.of_nat (S r) * (num_cols + 1) + Z.of_nat (S c) + 1)
        by (unfold ni; lia). eauto.
    + destruct (Hres (S r) c) as (node & H1 & H2 & H3); [lia..|].
      replace (ni + 1 + (num_cols + 1) - 1)
        with (Z.of_nat (S r) * (num_cols + 1) + Z.of_nat c + 1)
        by (unfold ni; lia). eauto.
Qed.

Lemma quad_corners_resolve_witness :
  let w' := outcome_state (descritize wall_band_inside) in
  let quad := mkQuad3D "P4" "N5" "N6" "N9" "N8" (qz 1) (qz 3824)
                (Q2Qc (3 # 10)) [] in
  NoDup [iNode quad; jNode quad; mNode quad; nNode quad]
  ∧ ∀ key, key ∈ [iNode quad; jNode quad; mNode quad; nNode quad] →
           ∃ node, GetNode (fem w') key = Some node ∧ node ∈ Nodes (fem w')
                   ∧ Name node = key.
Proof.
  apply (quad_corners_resolve wall_band_inside);
    [reflexivity | by_compute | by_compute | by_compute].
Defined.

(** ** Edge supports on the mesh *)

Lemma define_supports_node_position w node :
  Name (define_supports_node w node) = Name node
  ∧ X (define_supports_node w node) = X node
  ∧ Y (define_supports_node w node) = Y node.
Proof.
  unfold define_supports_node.
  generalize (isclose (X node) 0%Qc) (isclose (X node) (width w))
             (isclose (Y node) 0%Qc) (isclose (Y node) (height w)).
  intros [] [] [] []; repeat case_decide; done.
Qed.

Lemma define_supports_node_twice w1 w2 node :
  width w1 = width w2 → height w1 = height w2 →
  left_support w1 = left_support w2 → right_support w1 = right_support w2 →
  bot_support w1 = bot_support w2 → top_support w1 = top_support w2 →
  define_supports_node w1 (define_supports_node w2 node)
  = define_supports_node w2 node.
Proof.
  intros Hw Hh Hl Hr Hb Ht.
  destruct (define_supports_node_position w2 node) as (_ & HX & HY).
  unfold define_supports_node at 1. rewrite HX, HY, Hw, Hh, Hl, Hr, Hb, Ht.
  unfold define_supports_node.
  generalize (isclose (X node) 0%Qc) (isclose (X node) (width w2))
             (isclose (Y node) 0%Qc) (isclose (Y node) (height w2)).
  intros [] [] [] []; repeat case_decide; done.
Qed.

(** X12: assigning the supports twice is the same as assigning them once:
    the assignment only ever sets restraints, and it decides from the
    position of a node, which it does not change. *)
Theorem define_supports_idempotent (w : RectWall) :
  define_supports (define_supports w) = define_supports w.
Proof.
  destruct w as [wd ht th ms e n m ls bs ts lfs rs an].
  unfold define_supports, set_fem.
  cbn [fem Nodes Quads width height thickness mesh_size E nu loads
       bot_support top_support left_support right_support analyzed].
  do 2 f_equal. rewrite map_map. apply map_ext. intros node.
  by apply define_supports_node_twice.
Qed.

Lemma isclose_refl (a : Qc) : isclose a a = true.
Proof.
  unfold isclose. apply bool_decide_eq_true.
  replace (a - a)%Qc with 0%Qc by ring.
  rewrite (Qcabs_pos 0) by apply Qcle_refl.
  apply Qcplus_nonneg_nonneg; [by_compute|].
  rewrite <- (Qcmult_0_l (Qcabs a)).
  apply Qcmult_le_compat_r; [by_compute|apply Qcabs_nonneg].
Qed.

Lemma define_supports_node_fresh w name x y z :
  restraints (define_supports_node w (Node3D_new name x y z))
  = policy_restraints (node_policy w (Node3D_new name x y z)).
Proof.
  unfold node_policy, define_supports_node. rewrite winning_edge_cases.
  cbn [X Y Node3D_new].
  generalize (isclose x 0%Qc) (isclose x (width w))
             (isclose y 0%Qc) (isclose y (height w)).
  unfold policy_restraints, edge_policy.
  intros [] [] [] []; cbn -[decide]; repeat case_decide; cbn;
    try congruence; done.
Qed.

Lemma descritize_wall w w' :
  descritize w = Done w' → 1 ≤ num_cols_of w → w' = set_fem w (fem w').
Proof.
  intros Hd Hn. destruct (descritize_Done_inv w w' Hd) as [Hm _].
  rewrite descritize_closed in Hd by done. by injection Hd as <-.
Qed.

(** X13: in the mesh of a wall whose model was new, the first node of every
    row is at the abscissa 0 and gets exactly the restraints of the policy
    of the left edge; the last node of the row, at the same ordinate and at
    the abscissa [num_cols*pl_width], is within tolerance of the right edge
    and gets exactly the restraints of its policy, unless it is within
    tolerance of the left edge as well. *)
Theorem edge_columns_restrained (w w' : RectWall) (r : nat) :
  fem w = FEModel3D_new → descritize w = Done w' → 1 ≤ num_cols_of w →
  (r < length (row_ordinates w))%nat →
  let cols := Z.to_nat (num_cols_of w) in
  let nodes := Nodes (fem (define_supports w')) in
  ∃ first last,
    nodes !! (r * S cols)%nat = Some first
    ∧ nodes !! (r * S cols + cols)%nat = Some last
    ∧ Y first = Y last
    ∧ X first = 0%Qc
    ∧ restraints first = policy_restraints (left_support w)
    ∧ X last = (Qc_of_Z (num_cols_of w) * pl_width_of w)%Qc
    ∧ isclose (X last) (width w) = true
    ∧ (isclose (X last) 0%Qc = false →
       restraints last = policy_restraints (right_support w)).
Proof.
  intros Hnew Hd Hn Hr cols nodes.
  destruct (lookup_lt_is_Some_2 (row_ordinates w) r Hr) as [y Hy].
  destruct (descritize_fresh w w' Hnew Hd Hn) as [HN _].
  pose proof (descritize_wall w w' Hd Hn) as Hw.
  assert (HS : Z.to_nat (num_cols_of w + 1) = S cols) by (unfold cols; lia).
  assert (Hcol : ∀ c : nat, Z.of_nat c ≤ num_cols_of w →
            ∃ key, nodes !! (r * S cols + c)%nat
                   = Some (define_supports_node w'
                             (Node3D_new key
                                (Qc_of_Z (Z.of_nat c) * pl_width_of w)%Qc
                                y 0%Qc))).
  { intros c Hc. eexists. unfold nodes, define_supports.
    cbn [set_fem fem Nodes].
    change (map (define_supports_node w') (Nodes (fem w')))
      with (define_supports_node w' <$> Nodes (fem w')).
    rewrite list_lookup_fmap, HN, <- HS.
    by rewrite (node_rows_lookup _ _ _ _ r c y) by (done || lia). }
  assert (Hl : left_support w' = left_support w) by by rewrite Hw.
  assert (Hr' : right_support w' = right_support w) by by rewrite Hw.
  assert (Hwd : width w' = width w) by by rewrite Hw.
  destruct (Hcol 0%nat) as [key0 H0]; [lia|].
  destruct (Hcol cols) as [key1 H1]; [unfold cols; lia|].
  rewrite Nat.add_0_r in H0.
  change (Z.of_nat 0) with 0 in H0.
  rewrite Qc_of_Z_0, Qcmult_0_l in H0.
  replace (Z.of_nat cols) with (num_cols_of w) in H1 by (unfold cols; lia).
  assert (Hlast : (Qc_of_Z (num_cols_of w) * pl_width_of w)%Qc = width w).
  { unfold pl_width_of.
    apply Qcmult_div_r. intros ?%Qc_of_Z_eq_0. lia. }
  eexists _, _. split; [exact H0|]. split; [exact H1|].
  destruct (define_supports_node_position w' (Node3D_new key0 0%Qc y 0%Qc))
    as (_ & -> & ->).
  destruct (define_supports_node_position w'
              (Node3D_new key1
                 (Qc_of_Z (num_cols_of w) * pl_width_of w)%Qc y 0%Qc))
    as (_ & -> & ->).
  cbn [X Y Node3D_new].
  split; [done|]. split; [done|]. split.
  { rewrite define_supports_node_fresh. unfold node_policy.
    rewrite winning_edge_cases. cbn [X Node3D_new].
    by rewrite isclose_refl, <- Hl. }
  split; [done|]. split; [rewrite Hlast; apply isclose_refl|].
  intros Hfar.
  rewrite define_supports_node_fresh. unfold node_policy.
  rewrite winning_edge_cases. cbn [X Node3D_new].
  by rewrite Hfar, Hwd, Hlast, isclose_refl, <- Hr'.
Qed.

Lemma edge_columns_restrained_witness :
  let w' := outcome_state (descritize wall_fixed_left) in
  let nodes := Nodes (fem (define_supports w')) in
  ∃ first last,
    nodes !! 3%nat = Some first ∧ nodes !! 5%nat = Some last
    ∧ Y first = Y last
    ∧ X first = 0%Qc
    ∧ restraints first = [true; true; true; true; true; false]
    ∧ X last = (Qc_of_Z (num_cols_of wall_fixed_left)
                * pl_width_of wall_fixed_left)%Qc
    ∧ isclose (X last) (width wall_fixed_left) = true
    ∧ (isclose (X last) 0%Qc = false →
       restraints last = [true; true; true; false; false; false]).
Proof.
  apply (edge_columns_restrained wall_fixed_left
           (outcome_state (descritize wall_fixed_left)) 1);
    [reflexivity | by_compute | by_compute | by_compute].
Defined.

(** ** Loading an element *)

Lemma add_pressures_nil quad : add_pressures quad [] = quad.
Proof. destruct quad. unfold add_pressures. simpl. by rewrite app_nil_r. Qed.

Lemma add_pressures_app quad ps1 ps2 :
  add_pressures (add_pressures quad ps1) ps2
  = add_pressures quad (ps1 ++ ps2).
Proof. unfold add_pressures. simpl. by rewrite app_assoc. Qed.

Lemma load_quad_app avgY ls1 ls2 p quad :
  (∀ l, l ∈ ls1 → band_contains avgY l → load_0 l ≠ load_1 l) →
  load_quad avgY (ls1 ++ ls2) p quad
  = load_quad avgY ls2 (p + sum_list (contributions avgY ls1))%Qc
      (add_pressures quad
         ((λ s, (s, "Case 1")) <$>
            running_sums p (contributions avgY ls1))).
Proof.
  revert p quad. unfold contributions.
  induction ls1 as [|l ls1 IH]; intros p quad Hnd.
  - cbn. by rewrite Qcplus_0_r, add_pressures_nil.
  - cbn [app load_quad]. rewrite filter_cons.
    fold (band_contains avgY l).
    destruct (decide (band_contains avgY l)) as [Hc|Hc].
    + rewrite truediv_Some.
      2:{ intros H0. apply (Hnd l); [apply list_elem_of_here|done|].
          symmetry. apply (inj (λ x, x + - load_0 l)%Qc).
          by rewrite Qcplus_opp_r. }
      rewrite IH by (intros; apply Hnd; [by apply list_elem_of_further|done]).
      cbn [fmap list_fmap running_sums sum_list foldr].
      fold (band_pressure avgY l).
      change (append_pressure quad (p + band_pressure avgY l))
        with (add_pressures quad [((p + band_pressure avgY l)%Qc, "Case 1")]).
      rewrite add_pressures_app. f_equal. symmetry. apply Qcplus_assoc.
    + apply IH. intros; apply Hnd; [by apply list_elem_of_further|done].
Qed.

Lemma length_running_sums p xs : length (running_sums p xs) = length xs.
Proof. revert p. induction xs; intros p; simpl; auto. Qed.

Lemma last_running_sums p xs :
  xs ≠ [] → last (running_sums p xs) = Some (p + sum_list xs)%Qc.
Proof.
  revert p. induction xs as [|x xs IH]; intros p Hne; [done|].
  destruct xs as [|x' xs].
  - simpl. by rewrite Qcplus_0_r.
  - change (last (running_sums p (x :: x' :: xs)))
      with (last (running_sums (p + x) (x' :: xs))).
    rewrite IH by done. f_equal. unfold sum_list. simpl. ring.
Qed.

(** X14: when no band that contains the centroid has equal ends, loading
    an element returns; it appends one entry per band that contains the
    centroid, in the order of the bands, each tagged ['Case 1'] and each
    the sum of the pressures of the containing bands up to that one; so the
    last entry is the sum over all containing bands, and nothing is
    appended when no band contains the centroid. Nothing else of the
    element changes. *)
Theorem load_quad_entries (avgY : Qc) (ls : list load) (quad : Quad3D) :
  (∀ l, l ∈ ls → band_contains avgY l → load_0 l ≠ load_1 l) →
  let xs := contributions avgY ls in
  ∃ entries,
    load_quad avgY ls 0%Qc quad = Done (add_pressures quad entries)
    ∧ entries = (λ s, (s, "Case 1")) <$> running_sums 0%Qc xs
    ∧ length entries = length (filter (band_contains avgY) ls)
    ∧ (xs ≠ [] → last entries = Some (sum_list xs, "Case 1")).
Proof.
  intros Hnd xs. eexists. split; [|split; [reflexivity|split]].
  - rewrite <- (app_nil_r ls), load_quad_app by done. reflexivity.
  - unfold xs, contributions.
    by rewrite length_fmap, length_running_sums, length_fmap.
  - intros Hne. rewrite fmap_last, last_running_sums by done.
    simpl. by rewrite Qcplus_0_l.
Qed.

Lemma load_quad_entries_witness :
  let avgY := Q2Qc (5 # 2) in
  let ls := loads wall_two_bands in
  let quad := mkQuad3D "P1" "N1" "N2" "N5" "N4" (qz 1) (qz 3824)
                (Q2Qc (3 # 10)) [] in
  let xs := contributions avgY ls in
  ∃ entries,
    load_quad avgY ls 0%Qc quad = Done (add_pressures quad entries)
    ∧ entries = (λ s, (s, "Case 1")) <$> running_sums 0%Qc xs
    ∧ length entries = length (filter (band_contains avgY) ls)
    ∧ (xs ≠ [] → last entries = Some (sum_list xs, "Case 1")).
Proof.
  apply load_quad_entries.
  intros l [->|[->|[]%elem_of_nil]%elem_of_cons]%elem_of_cons _; by_compute.
Defined.

(** X15: a band with equal ends that contains the centroid makes loading
    raise a [ZeroDivisionError]; the entries for the bands before it are
    then already appended, those for the bands after it are not. *)
Theorem load_quad_degenerate_band (avgY : Qc) (ls1 ls2 : list load)
    (l : load) (quad : Quad3D) :
  (∀ l', l' ∈ ls1 → band_contains avgY l' → load_0 l' ≠ load_1 l') →
  band_contains avgY l → load_0 l = load_1 l →
  load_quad avgY (ls1 ++ l :: ls2) 0%Qc quad
  = Raised ZeroDivisionError
      (add_pressures quad
         ((λ s, (s, "Case 1")) <$>
            running_sums 0%Qc (contributions avgY ls1))).
Proof.
  intros Hnd Hc Heq. rewrite load_quad_app by done.
  cbn [load_quad]. fold (band_contains avgY l).
  rewrite decide_True by done.
  replace (load_1 l - load_0 l)%Qc with 0%Qc by (rewrite Heq; ring).
  by rewrite truediv_None.
Qed.

Lemma load_quad_degenerate_band_witness :
  let quad := mkQuad3D "P1" "N1" "N2" "N5" "N4" (qz 1) (qz 3824)
                (Q2Qc (3 # 10)) [] in
  load_quad (qz 5)
    ([(qz 0, qz 10, qz 1, qz 1)] ++ (qz 5, qz 5, qz 2, qz 2) :: [])
    0%Qc quad
  = Raised ZeroDivisionError
      (add_pressures quad
         ((λ s, (s, "Case 1")) <$>
            running_sums 0%Qc
              (contributions (qz 5) [(qz 0, qz 10, qz 1, qz 1)]))).
Proof.
  apply load_quad_degenerate_band.
  - intros l ->%list_elem_of_singleton _. by_compute.
  - split; by_compute.
  - by_compute.
Defined.

(** ** The rows of the mesh are strictly increasing *)





(** ** What an analysis leaves *)

Lemma load_quad_Done avgY ls p quad quad' :
  load_quad avgY ls p quad = Done quad' →
  quad' = add_pressures quad
            ((λ s, (s, "Case 1")) <$>
               running_sums p (contributions avgY ls)).
Proof.
  revert p quad. unfold contributions.
  induction ls as [|l ls IH]; intros p quad H.
  - cbn in H. injection H as <-. cbn. by rewrite add_pressures_nil.
  - cbn [load_quad] in H. rewrite filter_cons.
    fold (band_contains avgY l) in *.
    destruct (decide (band_contains avgY l)) as [Hc|Hc].
    + unfold truediv in H.
      destruct (decide (load_1 l - load_0 l = 0)%Qc) as [|Hnz]; [done|].
      apply IH in H. rewrite H.
      cbn [fmap list_fmap running_sums].
      fold (band_pressure avgY l).
      change (append_pressure quad (p + band_pressure avgY l))
        with (add_pressures quad [((p + band_pressure avgY l)%Qc, "Case 1")]).
      by rewrite add_pressures_app.
    + by apply IH.
Qed.

Lemma load_quads_Done m ls done todo quads :
  load_quads m ls done todo = Done quads →
  ∃ new, quads = done ++ new ∧ Forall2 (loaded m ls) todo new.
Proof.
  revert done. induction todo as [|quad todo IH]; intros done H.
  - injection H as <-. exists []. by rewrite app_nil_r.
  - cbn [load_quads] in H.
    destruct (avgY_of m quad) as [e|avgY] eqn:Havg; [done|].
    destruct (load_quad avgY ls 0%Qc quad) as [quad'|e quad'] eqn:Hq;
      [|done].
    apply IH in H as (new & -> & HF).
    exists (quad' :: new). rewrite <- app_assoc. split; [done|].
    constructor; [|done]. exists avgY. split; [done|].
    by apply load_quad_Done.
Qed.

Lemma lifts_Done_wall w pl_width num_cols iter_y st w' :
  lifts w pl_width num_cols iter_y st = Done w' → w' = set_fem w (fem w').
Proof.
  revert st. induction iter_y as [|cp iter_y IH]; intros st H.
  - by injection H as <-.
  - cbn [lifts] in H.
    destruct (lift w pl_width num_cols st cp) as [e|st']; [done|].
    by apply IH in H.
Qed.

Lemma descritize_Done_wall w w' :
  descritize w = Done w' → w' = set_fem w (fem w').
Proof.
  unfold descritize, descritize_with.
  destruct (truediv (width w) (mesh_size w)) as [e|q]; [done|].
  destruct (truediv (width w) (Qc_of_Z (py_round q))) as [e|pl_width];
    [done|].
  destruct (control_points remove_dups (height w) (loads w))
    as [|y0 iter_y]; [done|].
  apply lifts_Done_wall.
Qed.

(** X16: when the analysis, up to the call of the solver, returns, the wall
    differs from the one it was called on by its model only; the nodes of
    the model are those that meshing left, in their order, with the
    supports assigned, and its elements are those that meshing left, each
    with the running sums of the pressures of the bands that contain its
    centroid appended to its pressures. *)
Theorem analyze_Done_loaded (w w' : RectWall) :
  analyze w = Done w' →
  ∃ w1,
    descritize w = Done w1
    ∧ w' = set_fem w (fem w')
    ∧ Nodes (fem w') = define_supports_node w <$> Nodes (fem w1)
    ∧ Forall2 (loaded (fem (define_supports w1)) (loads w))
        (Quads (fem w1)) (Quads (fem w')).
Proof.
  unfold analyze. destruct (descritize w) as [w1|e w1] eqn:Hd; [|done].
  cbn zeta. intros H. exists w1. split; [done|].
  pose proof (descritize_Done_wall w w1 Hd) as Hw1.
  assert (Hloads : loads (define_supports w1) = loads w)
    by by rewrite Hw1.
  change (Quads (fem (define_supports w1))) with (Quads (fem w1)) in H.
  rewrite Hloads in H.
  destruct (load_quads (fem (define_supports w1)) (loads w) []
              (Quads (fem w1))) as [quads|e quads] eqn:Hq; [|done].
  cbn [outcome_map] in H. injection H as <-.
  apply load_quads_Done in Hq as (new & -> & HF).
  cbn [set_fem fem Nodes Quads app define_supports].
  split; [by rewrite Hw1|]. split; [by rewrite Hw1|done].
Qed.

Lemma analyze_Done_loaded_witness :
  ∃ w1,
    descritize wall_band_inside = Done w1
    ∧ wall_inside_analysed
      = set_fem wall_band_inside (fem wall_inside_analysed)
    ∧ Nodes (fem wall_inside_analysed)
      = define_supports_node wall_band_inside <$> Nodes (fem w1)
    ∧ Forall2
        (loaded (fem (define_supports w1)) (loads wall_band_inside))
        (Quads (fem w1)) (Quads (fem wall_inside_analysed)).
Proof.
  apply analyze_Done_loaded. by_compute.
Defined.

(** ** The largest displacement *)

Lemma max_displacement_step_raised e ds :
  foldl max_displacement_step (inl e) ds = inl e.
Proof. by induction ds. Qed.

Lemma max_displacement_fold ds (a : Qc) :
  (∀ d, d ∈ ds → is_Some (d !! "Combo 1")) →
  ∃ r,
    foldl max_displacement_step (inr a) ds = inr r
    ∧ (Qcabs a ≤ Qcabs r)%Qc
    ∧ (∀ (j : nat) d v, ds !! j = Some d → d !! "Combo 1" = Some v →
         (Qcabs v ≤ Qcabs r)%Qc)
    ∧ (r = a
       ∨ ∃ (i : nat) d,
           ds !! i = Some d ∧ d !! "Combo 1" = Some r
           ∧ ∀ (j : nat) d' v, (j < i)%nat → ds !! j = Some d' →
               d' !! "Combo 1" = Some v → (Qcabs v < Qcabs r)%Qc).
Proof.
  induction ds as [|d ds IH] using rev_ind; intros Hall.
  { exists a. split; [done|]. split; [apply Qcle_refl|].
    split; [done|by left]. }
  destruct IH as (r & Hr & Har & Hle & Hfirst).
  { intros d' Hd'. apply Hall, elem_of_app. by left. }
  destruct (Hall d) as [v Hv]; [apply elem_of_app; right; by left|].
  rewrite foldl_snoc, Hr. cbn [max_displacement_step]. rewrite Hv.
  destruct (decide (Qcabs r < Qcabs v)%Qc) as [Hlt|Hge].
  - exists v. split; [done|].
    split; [by eapply Qclt_le_weak, Qcle_lt_trans|].
    split.
    + intros j d' v' Hj Hv'.
      apply lookup_app_Some in Hj as [Hj|[_ Hj]].
      * eapply Qclt_le_weak, Qcle_lt_trans; [by eapply Hle|done].
      * apply list_lookup_singleton_Some in Hj as [_ <-].
        rewrite Hv in Hv'. injection Hv' as <-. apply Qcle_refl.
    + right. exists (length ds), d.
      split; [by rewrite lookup_app_r, Nat.sub_diag by lia|].
      split; [done|].
      intros j d' v' Hj Hd' Hv'.
      rewrite lookup_app_l in Hd' by done.
      eapply Qcle_lt_trans; [by eapply Hle|done].
  - apply Qcnot_lt_le in Hge.
    exists r. split; [done|]. split; [done|]. split.
    + intros j d' v' Hj Hv'.
      apply lookup_app_Some in Hj as [Hj|[_ Hj]]; [by eapply Hle|].
      apply list_lookup_singleton_Some in Hj as [_ <-].
      rewrite Hv in Hv'. by injection Hv' as <-.
    + destruct Hfirst as [->|(i & d' & Hi & Hd' & Hbefore)]; [by left|].
      right. exists i, d'.
      split; [by apply lookup_app_l_Some|]. split; [done|].
      intros j d'' v' Hj Hd'' Hv'.
      apply lookup_lt_Some in Hi.
      rewrite lookup_app_l in Hd'' by lia.
      by eapply Hbefore.
Qed.

Lemma max_displacement_fold_raises ds (a : report_exn + Qc) d :
  d ∈ ds → d !! "Combo 1" = None →
  ∃ e, foldl max_displacement_step a ds = inl e
       ∧ (a = inl e ∨ e = Core KeyError).
Proof.
  revert a. induction ds as [|d' ds IH]; intros a Hd Hnone.
  { by apply elem_of_nil in Hd. }
  apply elem_of_cons in Hd as [<-|Hd].
  - cbn [foldl]. destruct a as [e|a]; cbn [max_displacement_step].
    + exists e. rewrite max_displacement_step_raised. auto.
    + rewrite Hnone. exists (Core KeyError).
      rewrite max_displacement_step_raised. auto.
  - cbn [foldl].
    destruct (IH (max_displacement_step a d') Hd Hnone) as (e & -> & He).
    exists e. split; [done|].
    destruct He as [He|He]; [|by right].
    destruct a as [e'|a]; cbn [max_displacement_step] in He.
    + by left.
    + destruct (d' !! "Combo 1"); [done|]. injection He as <-. by right.
Qed.

(** X17: when every node has a displacement for the combination, the
    search that ends [analyze] returns the displacement of a node such
    that no node has a larger magnitude and every node before it has a
    smaller one: the first of the largest, with its sign. *)
Theorem max_displacement_is_first_largest
    (nodes_DZ : list (gmap string Qc)) :
  nodes_DZ ≠ [] →
  (∀ d, d ∈ nodes_DZ → is_Some (d !! "Combo 1")) →
  ∃ DZ (i : nat) d,
    max_displacement nodes_DZ = inr DZ
    ∧ nodes_DZ !! i = Some d ∧ d !! "Combo 1" = Some DZ
    ∧ ∀ (j : nat) d' v, nodes_DZ !! j = Some d' →
        d' !! "Combo 1" = Some v →
        (Qcabs v ≤ Qcabs DZ)%Qc ∧ ((j < i)%nat → (Qcabs v < Qcabs DZ)%Qc).
Proof.
  intros Hne Hall. destruct nodes_DZ as [|first rest]; [done|].
  destruct (Hall first) as [a Ha]; [by left|].
  destruct (max_displacement_fold (first :: rest) a Hall)
    as (r & Hr & _ & Hle & Hfirst).
  unfold max_displacement. rewrite Ha, Hr.
  destruct Hfirst as [->|(i & d & Hi & Hd & Hbefore)].
  - exists a, 0%nat, first. do 3 (split; [done|]).
    intros j d' v Hj Hv. split; [by eapply Hle|lia].
  - exists r, i, d. do 3 (split; [done|]).
    intros j d' v Hj Hv. split; [by eapply Hle|].
    intros Hlt. by eapply Hbefore.
Qed.

Lemma max_displacement_is_first_largest_witness :
  ∃ DZ (i : nat) d,
    max_displacement three_displacements = inr DZ
    ∧ three_displacements !! i = Some d ∧ d !! "Combo 1" = Some DZ
    ∧ ∀ (j : nat) d' v, three_displacements !! j = Some d' →
        d' !! "Combo 1" = Some v →
        (Qcabs v ≤ Qcabs DZ)%Qc ∧ ((j < i)%nat → (Qcabs v < Qcabs DZ)%Qc).
Proof.
  apply max_displacement_is_first_largest; [done|].
  intros d Hd. unfold three_displacements in Hd.
  repeat (apply elem_of_cons in Hd as [->|Hd]);
    [by eexists ..|by apply elem_of_nil in Hd].
Defined.

(** X18: the search for the largest displacement fails in two cases only:
    with [IndexError] on a model without nodes, with [KeyError] when some
    node has no displacement for the combination. *)
Theorem max_displacement_raises_iff
    (nodes_DZ : list (gmap string Qc)) (e : report_exn) :
  max_displacement nodes_DZ = inl e
  ↔ (nodes_DZ = [] ∧ e = IndexError)
    ∨ (e = Core KeyError
       ∧ ∃ d, d ∈ nodes_DZ ∧ d !! "Combo 1" = None).
Proof.
  split.
  - intros H. destruct nodes_DZ as [|first rest].
    { injection H as <-. by left. }
    right.
    destruct (decide (Forall (λ d : gmap string Qc,
                                is_Some (d !! "Combo 1")) (first :: rest)))
      as [Hall|Hex].
    + rewrite Forall_forall in Hall.
      destruct (Hall first) as [a Ha]; [by left|].
      destruct (max_displacement_fold (first :: rest) a Hall)
        as (r & Hr & _).
      unfold max_displacement in H. rewrite Ha, Hr in H. done.
    + apply not_Forall_Exists in Hex; [|apply _].
      apply Exists_exists in Hex as (d & Hd & Hnone).
      assert (Hn : d !! "Combo 1" = None).
      { destruct (d !! "Combo 1") eqn:E; [|done].
        destruct Hnone. by eexists. }
      split; [|by exists d].
      unfold max_displacement in H.
      destruct (first !! "Combo 1") as [a|] eqn:Ha;
        [|by injection H as <-].
      destruct (max_displacement_fold_raises (first :: rest) (inr a) d
                  Hd Hn) as (e' & He' & [?|He]); [done|].
      rewrite He' in H. injection H as <-. done.
  - intros [[-> ->]|(-> & d & Hd & Hn)]; [done|].
    destruct nodes_DZ as [|first rest]; [by apply elem_of_nil in Hd|].
    unfold max_displacement.
    destruct (first !! "Combo 1") as [a|] eqn:Ha; [|done].
    destruct (max_displacement_fold_raises (first :: rest) (inr a) d
                Hd Hn) as (e' & He' & [?|He]); [done|].
    by rewrite He', He.
Qed.

(** ** The grid of the plots *)

Lemma first_row_x_raises_acc nodes x e :
  first_row_x nodes x = inl e
  ↔ e = IndexError ∧ nodes ≠ []
    ∧ ∀ (i : nat) a b, nodes !! i = Some a → nodes !! S i = Some b →
        (X a ≤ X b)%Qc.
Proof.
  revert x. induction nodes as [|node rest IH]; intros x.
  { split; [done|]. by intros (_ & ? & _). }
  cbn [first_row_x]. destruct rest as [|next rest].
  { split.
    - intros [= <-]. split; [done|]. split; [done|].
      intros [|i] a b; done.
    - by intros (-> & _). }
  destruct (decide (X next < X node)%Qc) as [Hlt|Hge].
  - split; [done|]. intros (_ & _ & H). exfalso.
    apply (Qclt_not_le _ _ Hlt). by apply (H 0%nat).
  - apply Qcnot_lt_le in Hge. rewrite IH. split.
    + intros (-> & _ & H). split; [done|]. split; [done|].
      intros [|i] a b Ha Hb; [|by apply (H i)].
      by injection Ha as <-; injection Hb as <-.
    + intros (-> & _ & H). split; [done|]. split; [done|].
      intros i a b Ha Hb. by apply (H (S i)).
Qed.

Lemma first_row_x_returns_acc nodes x (k : nat) a b :
  nodes !! k = Some a → nodes !! S k = Some b → (X b < X a)%Qc →
  (∀ (i : nat) u v, (i < k)%nat → nodes !! i = Some u →
     nodes !! S i = Some v → (X u ≤ X v)%Qc) →
  first_row_x nodes x = inr (x ++ (X <$> take (S k) nodes)).
Proof.
  revert x k. induction nodes as [|node rest IH]; intros x k Ha Hb Hlt Hle.
  { done. }
  cbn [first_row_x]. destruct rest as [|next rest]; [done|].
  destruct k as [|k].
  - injection Ha as <-. injection Hb as <-.
    by rewrite decide_True by done.
  - rewrite decide_False.
    2:{ apply Qcle_not_lt. apply (Hle 0%nat); [lia|done..]. }
    rewrite (IH _ k) by
      (try done; intros i u v Hi; apply (Hle (S i)); lia).
    by rewrite <- app_assoc.
Qed.

(** X19: the loop that collects the abscissae of the first row of nodes
    fails, with [IndexError], exactly on a model that has nodes whose
    abscissae never decrease from one node to the next, for instance a
    single row of nodes. *)
Theorem first_row_x_raises_iff (nodes : list Node3D) (e : report_exn) :
  first_row_x nodes [] = inl e
  ↔ e = IndexError ∧ nodes ≠ []
    ∧ ∀ (i : nat) a b, nodes !! i = Some a → nodes !! S i = Some b →
        (X a ≤ X b)%Qc.
Proof. apply first_row_x_raises_acc. Qed.

(** X20: when the abscissa first decreases after the node of index [k],
    the loop returns the abscissae of the nodes 0 to [k]. *)
Theorem first_row_x_returns (nodes : list Node3D) (k : nat) a b :
  nodes !! k = Some a → nodes !! S k = Some b → (X b < X a)%Qc →
  (∀ (i : nat) u v, (i < k)%nat → nodes !! i = Some u →
     nodes !! S i = Some v → (X u ≤ X v)%Qc) →
  first_row_x nodes [] = inr (X <$> take (S k) nodes).
Proof. apply first_row_x_returns_acc. Qed.

Lemma first_row_x_returns_witness :
  first_row_x (Nodes (fem wall_inside_analysed)) []
  = inr (X <$> take 3 (Nodes (fem wall_inside_analysed))).
Proof.
  apply (first_row_x_returns (Nodes (fem wall_inside_analysed)) 2
           (define_supports_node wall_band_inside
              (Node3D_new "N3" (qz 10) (qz 0) 0%Qc))
           (define_supports_node wall_band_inside
              (Node3D_new "N4" (qz 0) (qz 3) 0%Qc))).
  - by_compute.
  - by_compute.
  - by_compute.
  - assert (H0 : Nodes (fem wall_inside_analysed) !! 0%nat
                 = Some (define_supports_node wall_band_inside
                           (Node3D_new "N1" (qz 0) (qz 0) 0%Qc)))
      by by_compute.
    assert (H1 : Nodes (fem wall_inside_analysed) !! 1%nat
                 = Some (define_supports_node wall_band_inside
                           (Node3D_new "N2" (qz 5) (qz 0) 0%Qc)))
      by by_compute.
    assert (H2 : Nodes (fem wall_inside_analysed) !! 2%nat
                 = Some (define_supports_node wall_band_inside
                           (Node3D_new "N3" (qz 10) (qz 0) 0%Qc)))
      by by_compute.
    intros [|[|i]] u v Hi Hu Hv; [| |lia].
    + rewrite H0 in Hu. rewrite H1 in Hv.
      injection Hu as <-. injection Hv as <-. by_compute.
    + rewrite H1 in Hu. rewrite H2 in Hv.
      injection Hu as <-. injection Hv as <-. by_compute.
Defined.

Lemma unique_y_fold nodes (y : list Qc) (y_prev : Qc) :
  StronglySorted Qclt y → Forall (λ v, v ≤ y_prev)%Qc y →
  last y = Some y_prev →
  ∃ y' y_prev',
    foldl unique_y_step (y, y_prev) nodes = (y ++ y', y_prev')
    ∧ StronglySorted Qclt (y ++ y')
    ∧ Forall (λ v, v ≤ y_prev')%Qc (y ++ y')
    ∧ last (y ++ y') = Some y_prev'
    ∧ (y_prev ≤ y_prev')%Qc
    ∧ (∀ v, v ∈ y' → ∃ node, node ∈ nodes ∧ Y node = v)
    ∧ (∀ node, node ∈ nodes → (Y node ≤ y_prev')%Qc).
Proof.
  revert y y_prev.
  induction nodes as [|node nodes IH]; intros y y_prev Hs Hle Hlast.
  { exists [], y_prev. rewrite app_nil_r. do 4 (split; [done|]).
    split; [apply Qcle_refl|]. split; by intros ? ?%elem_of_nil. }
  cbn [foldl]. unfold unique_y_step at 2. cbn [fst snd].
  destruct (decide (y_prev < Y node)%Qc) as [Hlt|Hge].
  - destruct (IH (y ++ [Y node]) (Y node))
      as (y' & y_prev' & Hf & Hs' & Hle' & Hlast' & Hp & Hin & Hall).
    { apply StronglySorted_app_2; [|done|repeat constructor].
      intros v1 v2 H1 ->%list_elem_of_singleton.
      rewrite Forall_forall in Hle.
      eapply Qcle_lt_trans; [by apply Hle|done]. }
    { apply Forall_app. split; [|repeat constructor; apply Qcle_refl].
      eapply Forall_impl; [exact Hle|].
      intros v Hv. simpl in Hv.
      eapply Qcle_trans; [done|by apply Qclt_le_weak]. }
    { apply last_snoc. }
    exists (Y node :: y'), y_prev'.
    rewrite <- app_assoc in Hf, Hs', Hle', Hlast'.
    do 4 (split; [done|]).
    split; [eapply Qcle_trans; [by apply Qclt_le_weak|done]|].
    split.
    + intros v [->|Hv]%elem_of_cons; [exists node; split; [by left|done]|].
      destruct (Hin v Hv) as (n & Hn & <-). exists n. split; [by right|done].
    + intros n [->|Hn]%elem_of_cons; [done|by apply Hall].
  - apply Qcnot_lt_le in Hge.
    destruct (IH y y_prev Hs Hle Hlast)
      as (y' & y_prev' & Hf & Hs' & Hle' & Hlast' & Hp & Hin & Hall).
    exists y', y_prev'. do 5 (split; [done|]). split.
    + intros v Hv. destruct (Hin v Hv) as (n & Hn & <-).
      exists n. split; [by right|done].
    + intros n [->|Hn]%elem_of_cons; [by eapply Qcle_trans|by apply Hall].
Qed.

(** X21: on a model with nodes, the loop that collects the ordinates
    returns a strictly increasing list of ordinates of nodes that starts
    with the ordinate of the first node and ends with the largest ordinate
    of the model. *)
Theorem unique_y_increasing (nodes : list Node3D) (first : Node3D) :
  head nodes = Some first →
  ∃ y top,
    unique_y nodes = inr y
    ∧ head y = Some (Y first)
    ∧ StronglySorted Qclt y
    ∧ (∀ v, v ∈ y → ∃ node, node ∈ nodes ∧ Y node = v)
    ∧ last y = Some top
    ∧ ∀ node, node ∈ nodes → (Y node ≤ top)%Qc.
Proof.
  intros Hhd. destruct nodes as [|n0 rest]; [done|].
  injection Hhd as ->.
  destruct (unique_y_fold (first :: rest) [Y first] (Y first))
    as (y' & y_prev' & Hf & Hs & Hle & Hlast & Hp & Hin & Hall).
  { repeat constructor. }
  { repeat constructor. apply Qcle_refl. }
  { done. }
  exists ([Y first] ++ y'), y_prev'. unfold unique_y. rewrite Hf.
  do 3 (split; [done|]). split; [|done].
  intros v [->|Hv]%elem_of_cons; [exists first; split; [by left|done]|].
  by apply Hin.
Qed.

Lemma unique_y_increasing_witness :
  ∃ y top,
    unique_y (Nodes (fem wall_inside_analysed)) = inr y
    ∧ head y = Some 0%Qc
    ∧ StronglySorted Qclt y
    ∧ (∀ v, v ∈ y →
         ∃ node, node ∈ Nodes (fem wall_inside_analysed) ∧ Y node = v)
    ∧ last y = Some top
    ∧ ∀ node, node ∈ Nodes (fem wall_inside_analysed) →
        (Y node ≤ top)%Qc.
Proof.
  apply (unique_y_increasing (Nodes (fem wall_inside_analysed))
           (Node3D_new "N1" 0%Qc 0%Qc 0%Qc)).
  by_compute.
Defined.

(** *** The grid of a meshed wall *)















